(** * ELLIO Traefik forward-auth: a shallow embedding of the access handler,
      the EDL parser and updater, the log shipper (leaky bucket, ring buffer,
      circuit breaker, retries) and the token manager, with the properties
      stated in the specification.

    Conventions.
    - Go [int], [int64] and [time.Duration] are [Z]; instants and durations are
      nanoseconds, as [time.Time] / [time.Duration] count them.
    - Go library functions the repository calls but does not define
      ([netip.ParseAddr], [netip.ParsePrefix], [strings.TrimSpace],
      [net.SplitHostPort], the [netipx.IPSet] membership test) are section
      variables; the repository's own code is written out.
    - A Go pair [(T, error)] is [result T]. *)

From Stdlib Require Import ZArith Lia String Ascii.
From stdpp Require Import base list strings.
From Stdlib Require SpecFloat.

Open Scope Z_scope.

(* ------------------------------------------------------------------ *)
(** ** Shared Go vocabulary *)

Inductive result (A : Type) : Type :=
| Ok (a : A)
| Error (e : string).
Arguments Ok {A} a.
Arguments Error {A} e.

(** [time.Second], [time.Minute], [time.Hour] in nanoseconds. *)
Definition Second : Z := 1000000000.
Definition Minute : Z := 60 * Second.
Definition Hour : Z := 60 * Minute.

(** [utils.MinInt64], [utils.MinDuration]. *)
Definition MinInt64 (a b : Z) : Z := if a <? b then a else b.
Definition MinDuration (a b : Z) : Z := if a <? b then a else b.

(** Two's-complement wrap-around of a Go [int64]. *)
Definition wrap64 (x : Z) : Z := ((x + 2 ^ 63) mod 2 ^ 64) - 2 ^ 63.
Definition max_int64 : Z := 2 ^ 63 - 1.
Definition min_int64 : Z := - 2 ^ 63.

(** HTTP status codes used by the handlers. *)
Definition StatusOK : Z := 200.
Definition StatusBadRequest : Z := 400.
Definition StatusForbidden : Z := 403.
Definition StatusServiceUnavailable : Z := 503.

(** [strings.Split(s, ",")[0]]: the text before the first comma. *)
Fixpoint split_comma_first (s : string) : string :=
  match s with
  | EmptyString => EmptyString
  | String c r =>
      if Ascii.eqb c "," then EmptyString else String c (split_comma_first r)
  end.

(** [strings.HasPrefix(s, "#")]. *)
Definition has_hash_prefix (s : string) : bool :=
  match s with
  | String c _ => Ascii.eqb c "#"
  | EmptyString => false
  end.

(* ------------------------------------------------------------------ *)
(** ** config: applied EDL configuration (config/loader.go) *)

(** The fields of [api.EDLConfig] that [applyEDLConfig] reads. *)
Record EDLConfig := mkEDLConfig {
  Purpose : string;
  UpdateFrequencySeconds : Z;
  Combined : list string;
  Enabled : bool
}.

(** The fields of [config.Config] that the EDL mapping writes. *)
Record Config := mkConfig {
  EDLURL : string;
  EDLMode : string;
  UpdateFrequency : Z;
  DeploymentEnabled : bool
}.

Definition setDeploymentDisabled (cfg : Config) : Config :=
  mkConfig "" "disabled" (1 * Hour) false.

Definition applyEDLConfig (cfg : Config) (ec : EDLConfig) : Config :=
  if negb (Enabled ec) then setDeploymentDisabled cfg
  else
    let mode :=
      if String.eqb (Purpose ec) "allowlist" then "allowlist"
      else if String.eqb (Purpose ec) "blocklist" then "blocklist"
      else if String.eqb (Purpose ec) "other" then "blocklist"
      else if String.eqb (Purpose ec) "others" then "blocklist"
      else "blocklist" in
    let freq0 := UpdateFrequencySeconds ec * Second in
    let freq := if freq0 <=? 0 then 5 * Minute else freq0 in
    let url := match Combined ec with u :: _ => u | [] => EDLURL cfg end in
    mkConfig url mode freq true.

(* ------------------------------------------------------------------ *)
(** ** auth: the forward-auth handler (auth/handler.go) *)

Section Handler.

(** [netip.Addr] and [netip.ParseAddr]. *)
Variable Addr : Type.
Variable ParseAddr : string -> result Addr.
(** [strings.TrimSpace]. *)
Variable TrimSpace : string -> string.
(** [net.SplitHostPort], host part on success. *)
Variable SplitHostPort : string -> result string.

(** The request as the handler reads it: [r.Header.Get] (which returns ""
    for an absent header) and [r.RemoteAddr]. *)
Record Request := mkRequest {
  HeaderGet : string -> string;
  RemoteAddr : string
}.

(** [Handler]; the matcher is its current [IPSet.Contains]. *)
Record Handler := mkHandler {
  matcher : Addr -> bool;
  isBlocklist : bool;
  deploymentEnabled : bool;
  ipHeaderOverride : string
}.

Definition NewHandler (m : Addr -> bool) (edlMode : string) (enabled : bool)
  : Handler :=
  mkHandler m (String.eqb edlMode "blocklist") enabled "".

Definition SetIPHeaderOverride (h : Handler) (name : string) : Handler :=
  mkHandler (matcher h) (isBlocklist h) (deploymentEnabled h) name.

Definition extractClientIP (h : Handler) (r : Request) : string :=
  let custom := HeaderGet r (ipHeaderOverride h) in
  if negb (String.eqb (ipHeaderOverride h) "") && negb (String.eqb custom "")
  then TrimSpace (split_comma_first custom)
  else
    let xff := HeaderGet r "X-Forwarded-For" in
    if negb (String.eqb xff "") then TrimSpace (split_comma_first xff)
    else
      let xri := HeaderGet r "X-Real-IP" in
      if negb (String.eqb xri "") then TrimSpace xri
      else match SplitHostPort (RemoteAddr r) with
           | Ok host => host
           | Error _ => RemoteAddr r
           end.

Definition evaluateAccess (h : Handler) (clientIP : string) : result bool :=
  if negb (deploymentEnabled h) then Ok true
  else match ParseAddr clientIP with
       | Error e => Error e
       | Ok addr =>
           let inList := matcher h addr in
           Ok (xorb (isBlocklist h) inList)
       end.

(** [serveForbidden] answers 403 on both of its paths (static page or
    plain text). *)
Definition serveForbidden (h : Handler) (r : Request) : Z := StatusForbidden.

(** The status code [ServeHTTP] writes. *)
Definition ServeHTTP (h : Handler) (r : Request) : Z :=
  let clientIP := extractClientIP h r in
  if String.eqb clientIP "" then StatusBadRequest
  else match evaluateAccess h clientIP with
       | Error _ => StatusBadRequest
       | Ok true => StatusOK
       | Ok false => serveForbidden h r
       end.

End Handler.

(* ------------------------------------------------------------------ *)
(** ** edl: line scanner, parser, updater and readiness probe *)

(** [bufio.Scanner] with the default [ScanLines] split and the default
    maximum token size [bufio.MaxScanTokenSize] = 64 KiB. *)
Definition MaxScanTokenSize : nat := 65536.

(** The text cut at every ['\n']; the last segment is the (possibly empty)
    unterminated tail. *)
Fixpoint split_newlines (s : string) : list string :=
  match s with
  | EmptyString => [EmptyString]
  | String c r =>
      if Ascii.eqb c "010"%char then EmptyString :: split_newlines r
      else match split_newlines r with
           | x :: xs => String c x :: xs
           | [] => [String c EmptyString]
           end
  end.

(** [dropCR]: a line's trailing ['\r'] is removed. *)
Fixpoint dropCR (s : string) : string :=
  match s with
  | EmptyString => EmptyString
  | String c EmptyString => if Ascii.eqb c "013"%char then EmptyString else s
  | String c r => String c (dropCR r)
  end.

(** The tokens [ScanLines] yields: one per terminated segment, and the tail
    only when it is non-empty. *)
Fixpoint scan_tokens (segs : list string) : list string :=
  match segs with
  | [] => []
  | [last] => if String.eqb last "" then [] else [dropCR last]
  | seg :: rest => dropCR seg :: scan_tokens rest
  end.

(** [scanner.Scan] loop followed by [scanner.Err()]: a line that does not fit
    the 64 KiB buffer (its bytes plus the ['\n'] that ends it) stops the scan
    with [bufio.ErrTooLong].  For an unterminated last line of exactly 64 KiB
    Go's outcome depends on whether the reader reports EOF together with the
    data; the model takes the error. *)
Definition scanLines (text : string) : result (list string) :=
  let segs := split_newlines text in
  if existsb (fun seg => Nat.leb MaxScanTokenSize (String.length seg)) segs
  then Error "bufio.Scanner: token too long"
  else Ok (scan_tokens segs).

(** A line that overflows the scanner's buffer whatever the reader: a
    ['\n']-terminated line of 64 KiB or more, or an unterminated last line
    of more than 64 KiB. *)
Fixpoint overlong_line (segs : list string) : bool :=
  match segs with
  | [] => false
  | [last] => Nat.ltb MaxScanTokenSize (String.length last)
  | seg :: rest => Nat.leb MaxScanTokenSize (String.length seg) || overlong_line rest
  end.

Section EDL.

Variable Addr : Type.
Context `{EqDecision Addr}.
(** [netip.Prefix], [netip.ParsePrefix], [netip.ParseAddr],
    [strings.TrimSpace] and [netip.Prefix.Contains]. *)
Variable Prefix : Type.
Variable ParsePrefix : string -> result Prefix.
Variable ParseAddr : string -> result Addr.
Variable TrimSpace : string -> string.
Variable PrefixContains : Prefix -> Addr -> bool.

(** What an [IPSetBuilder] has been given: [AddPrefix p] or [Add addr]. *)
Inductive Entry :=
| EPrefix (p : Prefix)
| EAddr (a : Addr).

Definition entry_contains (e : Entry) (x : Addr) : bool :=
  match e with
  | EPrefix p => PrefixContains p x
  | EAddr a => bool_decide (a = x)
  end.

(** The [IPSet] built by [b.IPSet()]: the union of what was added.
    [IPSetBuilder.IPSet] reports an error only for invalid ranges, which the
    parsed prefixes and addresses never are. *)
Definition IPSet := list Entry.
Definition IPSetContains (s : IPSet) (x : Addr) : bool :=
  existsb (fun e => entry_contains e x) s.

(** The body of the scan loop of [parseEDL] on one raw line. *)
Definition parse_line (b : IPSet) (count : Z) (raw : string) : IPSet * Z :=
  let line := TrimSpace raw in
  if String.eqb line "" || has_hash_prefix line then (b, count)
  else match ParsePrefix line with
       | Ok prefix => (b ++ [EPrefix prefix], count + 1)
       | Error _ =>
           match ParseAddr line with
           | Ok addr => (b ++ [EAddr addr], count + 1)
           | Error _ => (b, count)
           end
       end.

Definition parseEDL (text : string) : result (IPSet * Z) :=
  match scanLines text with
  | Error e => Error e
  | Ok lines =>
      Ok (fold_left (fun acc raw => parse_line (fst acc) (snd acc) raw)
                    lines ([], 0))
  end.

(** The entry a line contributes, if it is accepted. *)
Definition accepted_entry (raw : string) : option Entry :=
  let line := TrimSpace raw in
  if String.eqb line "" || has_hash_prefix line then None
  else match ParsePrefix line with
       | Ok p => Some (EPrefix p)
       | Error _ =>
           match ParseAddr line with
           | Ok a => Some (EAddr a)
           | Error _ => None
           end
       end.

(** The entries of the accepted lines, in order. *)
Definition accepted_entries (lines : list string) : list Entry :=
  flat_map (fun raw => match accepted_entry raw with Some e => [e] | None => [] end)
           lines.

(** [ipmatcher.Matcher]: the current set and the entry count. *)
Record Matcher := mkMatcher { m_ipset : IPSet; m_count : Z }.

Definition EmptyMatcher : Matcher := mkMatcher [] 0.
Definition MatcherUpdate (m : Matcher) (s : IPSet) (count : Z) : Matcher :=
  mkMatcher s count.
Definition Contains (m : Matcher) (x : Addr) : bool := IPSetContains (m_ipset m) x.

(** [edl.Updater]; the zero [time.Time] is [None]. *)
Record Updater := mkUpdater {
  u_matcher : Matcher;
  lastUpdate : option Z;
  lastError : option string;
  updateCount : Z
}.

Definition NewUpdater (m : Matcher) : Updater := mkUpdater m None None 0.

(** [updateNow] given the outcome of [FetchWithRetry] and the instant
    [time.Now()] after it. *)
Definition updateNow (u : Updater) (fetched : result (IPSet * Z)) (now : Z)
  : Updater * result unit :=
  match fetched with
  | Error e => (mkUpdater (u_matcher u) (lastUpdate u) (Some e) (updateCount u), Error e)
  | Ok (s, count) =>
      (mkUpdater (MatcherUpdate (u_matcher u) s count) (Some now) None
                 (updateCount u + 1), Ok tt)
  end.

Definition GetStatus (u : Updater) : option Z * option string * Z * Z :=
  (lastUpdate u, lastError u, updateCount u, m_count (u_matcher u)).

(** [HealthHandler.Ready] at instant [now]: status code and body. *)
Definition Ready (u : Updater) (now : Z) : Z * string :=
  match GetStatus u with
  | (lastUpd, _, _, entryCount) =>
      match lastUpd with
      | None => (StatusServiceUnavailable, "Not ready - EDL not yet loaded")
      | Some t =>
          if entryCount =? 0
          then (StatusServiceUnavailable, "Not ready - EDL not yet loaded")
          else if now - t >? 2 * Hour
          then (StatusServiceUnavailable, "Not ready - EDL data is stale")
          else (StatusOK, "Ready")
      end
  end.

End EDL.

(* ------------------------------------------------------------------ *)
(** ** logs: leaky bucket (logs/leaky_bucket.go) *)

Record LeakyBucket := mkLeakyBucket {
  capacity : Z;
  tokens : Z;
  refillRate : Z;
  lastRefill : Z
}.

Definition NewLeakyBucket (cap rate now : Z) : LeakyBucket :=
  mkLeakyBucket cap cap rate now.

(** Go's [float64]: IEEE 754 binary64 (53-bit significand, exponents up to
    1024), every operation rounded to nearest, ties to even. *)
Definition float64 : Type := SpecFloat.spec_float.

(** [float64(z)] for an integer [z]. *)
Definition float64_of_Z (z : Z) : float64 := SpecFloat.binary_normalize 53 1024 z 0 false.

Definition fadd (x y : float64) : float64 := SpecFloat.SFadd 53 1024 x y.
Definition fmul (x y : float64) : float64 := SpecFloat.SFmul 53 1024 x y.
Definition fdiv (x y : float64) : float64 := SpecFloat.SFdiv 53 1024 x y.

(** [int64(f)]: truncation toward zero.  A NaN, an infinity or a value
    outside [int64] gives [0x8000000000000000], the result on amd64. *)
Definition int64_of_float64 (f : float64) : Z :=
  match f with
  | SpecFloat.S754_zero _ => 0
  | SpecFloat.S754_finite sgn m e =>
      let a := if 0 <=? e then Z.pos m * 2 ^ e else Z.pos m / 2 ^ (- e) in
      let v := if sgn then - a else a in
      if (min_int64 <=? v) && (v <=? max_int64) then v else min_int64
  | _ => min_int64
  end.

(** [time.Duration.Seconds]: [float64(d / Second) + float64(d % Second) / 1e9]. *)
Definition DurationSeconds (d : Z) : float64 :=
  fadd (float64_of_Z (Z.quot d Second))
       (fdiv (float64_of_Z (Z.rem d Second)) (float64_of_Z 1000000000)).

(** [now.Sub(lastRefill)] on monotonic clock readings ([subMono]): the
    difference, saturated at the bounds of [time.Duration]. *)
Definition subMono (t u : Z) : Z :=
  let d := wrap64 (t - u) in
  if (d <? 0) && (u <? t) then max_int64
  else if (0 <? d) && (t <? u) then min_int64
  else d.

(** [int64(elapsed.Seconds() * float64(lb.refillRate))]. *)
Definition tokensToAdd (lb : LeakyBucket) (now : Z) : Z :=
  let elapsed := subMono now (lastRefill lb) in
  int64_of_float64 (fmul (DurationSeconds elapsed) (float64_of_Z (refillRate lb))).

Definition refill (lb : LeakyBucket) (now : Z) : LeakyBucket :=
  let add := tokensToAdd lb now in
  if 0 <? add
  then mkLeakyBucket (capacity lb)
                     (MinInt64 (capacity lb) (wrap64 (tokens lb + add)))
                     (refillRate lb) now
  else lb.

Definition Allow (lb : LeakyBucket) (n now : Z) : bool * LeakyBucket :=
  let lb := refill lb now in
  if n <=? tokens lb
  then (true, mkLeakyBucket (capacity lb) (wrap64 (tokens lb - n))
                            (refillRate lb) (lastRefill lb))
  else (false, lb).

Definition AvailableTokens (lb : LeakyBucket) (now : Z) : Z * LeakyBucket :=
  let lb := refill lb now in (tokens lb, lb).

(** [WaitTime]: after a refill, [0] when the tokens suffice, else
    [time.Duration(float64(tokensNeeded) / float64(rate) * float64(time.Second))]. *)
Definition WaitTime (lb : LeakyBucket) (n now : Z) : Z * LeakyBucket :=
  let lb := refill lb now in
  if n <=? tokens lb then (0, lb)
  else
    let tokensNeeded := wrap64 (n - tokens lb) in
    let secondsToWait := fdiv (float64_of_Z tokensNeeded) (float64_of_Z (refillRate lb)) in
    (int64_of_float64 (fmul secondsToWait (float64_of_Z Second)), lb).

(** The calls the bucket serves, each at an instant of the monotonic
    clock. *)
Inductive BucketCall :=
| CAllow (n now : Z)
| CWaitTime (n now : Z)
| CAvailableTokens (now : Z).

Definition bucket_call (lb : LeakyBucket) (c : BucketCall) : LeakyBucket :=
  match c with
  | CAllow n now => snd (Allow lb n now)
  | CWaitTime n now => snd (WaitTime lb n now)
  | CAvailableTokens now => snd (AvailableTokens lb now)
  end.

Definition call_time (c : BucketCall) : Z :=
  match c with
  | CAllow _ t | CWaitTime _ t | CAvailableTokens t => t
  end.

Definition call_request (c : BucketCall) : Z :=
  match c with
  | CAllow n _ | CWaitTime n _ => n
  | CAvailableTokens _ => 0
  end.

Fixpoint bucket_run (lb : LeakyBucket) (cs : list BucketCall) : LeakyBucket :=
  match cs with
  | [] => lb
  | c :: cs => bucket_run (bucket_call lb c) cs
  end.

(** The calls a run is about: a non-negative request, and an accrued amount
    that leaves [tokens + tokensToAdd] inside [int64]. *)
Definition call_ok (lb : LeakyBucket) (c : BucketCall) : bool :=
  (0 <=? call_request c) && (tokensToAdd lb (call_time c) <=? max_int64 - capacity lb).

Fixpoint calls_ok (lb : LeakyBucket) (cs : list BucketCall) : bool :=
  match cs with
  | [] => true
  | c :: cs => call_ok lb c && calls_ok (bucket_call lb c) cs
  end.

(* ------------------------------------------------------------------ *)
(** ** logs: ring buffer (logs/buffer.go) *)

Section RingBuffer.

Variable E : Type.

(** [RingBuffer]; a [nil] slot is [None].  Indices are Go [int]s that stay
    in [0, capacity). *)
Record RingBuffer := mkRingBuffer {
  rb_buffer : list (option E);
  rb_capacity : nat;
  rb_head : nat;
  rb_tail : nat;
  rb_size : nat
}.

Definition NewRingBuffer (capacity : nat) : RingBuffer :=
  mkRingBuffer (replicate capacity None) capacity 0 0 0.

Definition Add (rb : RingBuffer) (event : E) : bool * RingBuffer :=
  if Nat.leb (rb_capacity rb) (rb_size rb) then (false, rb)
  else (true, mkRingBuffer (<[rb_tail rb := Some event]> (rb_buffer rb))
                           (rb_capacity rb) (rb_head rb)
                           (Nat.modulo (S (rb_tail rb)) (rb_capacity rb))
                           (S (rb_size rb))).

(** One step of the removal loop shared by [Get], [Drain] and [DrainAll]:
    read the head slot, clear it, advance [head], decrement [size]. *)
Definition pop_head (rb : RingBuffer) : option E * RingBuffer :=
  (mjoin (rb_buffer rb !! rb_head rb),
   mkRingBuffer (<[rb_head rb := None]> (rb_buffer rb)) (rb_capacity rb)
                (Nat.modulo (S (rb_head rb)) (rb_capacity rb)) (rb_tail rb)
                (Nat.pred (rb_size rb))).

Definition Get (rb : RingBuffer) : option (option E) * RingBuffer :=
  if Nat.eqb (rb_size rb) 0 then (None, rb)
  else let '(ev, rb') := pop_head rb in (Some ev, rb').

Fixpoint drain_loop (k : nat) (rb : RingBuffer) (acc : list (option E))
  : list (option E) * RingBuffer :=
  match k with
  | O => (acc, rb)
  | S k' => let '(ev, rb') := pop_head rb in drain_loop k' rb' (acc ++ [ev])
  end.

Definition Drain (rb : RingBuffer) (maxItems : Z)
  : option (list (option E) * RingBuffer) :=
  if Nat.eqb (rb_size rb) 0 then Some ([], rb)
  else
    let count := if maxItems <? Z.of_nat (rb_size rb) then maxItems
                 else Z.of_nat (rb_size rb) in
    (* make([]*AccessEvent, 0, count) panics when count < 0 *)
    if count <? 0 then None
    else Some (drain_loop (Z.to_nat count) rb []).

Definition DrainAll (rb : RingBuffer) : list (option E) * RingBuffer :=
  if Nat.eqb (rb_size rb) 0 then ([], rb)
  else drain_loop (rb_size rb) rb [].

Definition Size (rb : RingBuffer) : nat := rb_size rb.

(** The operations and what each one returns. *)
Inductive RBOp :=
| OpAdd (e : E)
| OpGet
| OpDrain (maxItems : Z)
| OpDrainAll
| OpSize.

Inductive RBOut :=
| OutAdd (ok : bool)
| OutGet (r : option (option E))
| OutDrain (items : list (option E))
| OutSize (n : nat)
| OutPanic.

Definition is_panic (o : RBOut) : bool :=
  match o with OutPanic => true | _ => false end.

Definition rb_step (rb : RingBuffer) (op : RBOp) : RBOut * RingBuffer :=
  match op with
  | OpAdd e => let '(ok, rb') := Add rb e in (OutAdd ok, rb')
  | OpGet => let '(r, rb') := Get rb in (OutGet r, rb')
  | OpDrain m =>
      match Drain rb m with
      | Some (xs, rb') => (OutDrain xs, rb')
      | None => (OutPanic, rb)
      end
  | OpDrainAll => let '(xs, rb') := DrainAll rb in (OutDrain xs, rb')
  | OpSize => (OutSize (Size rb), rb)
  end.

Fixpoint rb_run (rb : RingBuffer) (ops : list RBOp) : list RBOut * RingBuffer :=
  match ops with
  | [] => ([], rb)
  | op :: rest =>
      let '(o, rb') := rb_step rb op in
      if is_panic o then ([o], rb')
      else let '(os, rb'') := rb_run rb' rest in (o :: os, rb'')
  end.

(** What a run has put in and taken out: successful [Add]s, and the items
    [Get], [Drain] and [DrainAll] returned. *)
Definition added (o : RBOut) : nat :=
  match o with OutAdd true => 1 | _ => 0 end%nat.
Definition removed (o : RBOut) : nat :=
  match o with
  | OutGet (Some _) => 1
  | OutDrain xs => length xs
  | _ => 0
  end%nat.

Definition total (ns : list nat) : nat := fold_right Nat.add 0%nat ns.

(** The queue a run describes, as the specification reads the buffer: a FIFO
    of capacity [cap] that refuses an element when full; [Drain m] returns the
    first [m] elements, and panics like the source on a negative [m] when
    the queue is not empty. *)
Definition queue_step (cap : nat) (q : list E) (op : RBOp) : RBOut * list E :=
  match op with
  | OpAdd e =>
      if Nat.leb cap (length q) then (OutAdd false, q) else (OutAdd true, q ++ [e])
  | OpGet =>
      match q with
      | [] => (OutGet None, q)
      | x :: q' => (OutGet (Some (Some x)), q')
      end
  | OpDrain m =>
      if (m <? 0) && negb (Nat.eqb (length q) 0) then (OutPanic, q)
      else (OutDrain (map Some (take (Z.to_nat m) q)), drop (Z.to_nat m) q)
  | OpDrainAll => (OutDrain (map Some q), [])
  | OpSize => (OutSize (length q), q)
  end.

Fixpoint queue_run (cap : nat) (q : list E) (ops : list RBOp) : list RBOut :=
  match ops with
  | [] => []
  | op :: rest =>
      let '(o, q') := queue_step cap q op in
      if is_panic o then [o] else o :: queue_run cap q' rest
  end.

(** The buffer [rb] holds the queue [q]: [q]'s [i]-th element sits in slot
    [(head + i) mod capacity], and [tail] is the slot after the last one. *)
Definition rb_rel (rb : RingBuffer) (q : list E) : Prop :=
  length (rb_buffer rb) = rb_capacity rb /\
  rb_size rb = length q /\
  (length q <= rb_capacity rb)%nat /\
  ((0 < rb_capacity rb)%nat ->
     (rb_head rb < rb_capacity rb)%nat /\
     rb_tail rb = Nat.modulo (rb_head rb + rb_size rb) (rb_capacity rb)) /\
  (forall i x, q !! i = Some x ->
     rb_buffer rb !! Nat.modulo (rb_head rb + i) (rb_capacity rb) = Some (Some x)).

End RingBuffer.

(* ------------------------------------------------------------------ *)
(** ** logs: the log shipper (logs/shipper.go) *)

Definition maxRetries : nat := 5.
Definition initialBackoff : Z := 1 * Second.
Definition maxBackoff : Z := 30 * Second.
Definition circuitBreakerThreshold : Z := 10.
Definition circuitBreakerTimeout : Z := 60 * Second.

(** Two's-complement wrap-around of a Go [int32] ([atomic.Int32]). *)
Definition wrap32 (x : Z) : Z := ((x + 2 ^ 31) mod 2 ^ 32) - 2 ^ 31.

(** The circuit-breaker fields of [LogShipper]. *)
Record Breaker := mkBreaker {
  failureCount : Z;
  circuitOpen : bool;
  lastFailure : Z
}.

(** A fresh shipper: zero count, closed circuit, zero [lastFailure]. *)
Definition NewBreaker (zero : Z) : Breaker := mkBreaker 0 false zero.

Definition isCircuitOpen (b : Breaker) (now : Z) : bool * Breaker :=
  if negb (circuitOpen b) then (false, b)
  else if circuitBreakerTimeout <? now - lastFailure b
  then (false, mkBreaker 0 false (lastFailure b))
  else (true, b).

Definition recordFailure (b : Breaker) (now : Z) : Breaker :=
  let count := wrap32 (failureCount b + 1) in
  mkBreaker count
            (if circuitBreakerThreshold <=? count then true else circuitOpen b)
            now.

Definition recordSuccess (b : Breaker) : Breaker :=
  mkBreaker 0 false (lastFailure b).

(** What [sendWithRetry] does, in order: sleep or one [send] (an HTTP POST). *)
Inductive IOEvent :=
| Sleep (d : Z)
| SendAttempt (attempt : nat).

Definition isRetryableError (_ : string) : bool := true.

(** The retry loop from iteration [attempt] on, with [fuel] iterations left;
    [send i] is the outcome of the [i]-th [s.send(payload)]. *)
Fixpoint retry_loop (fuel attempt : nat) (backoff : Z) (lastErr : result unit)
  (send : nat -> result unit) : result unit * list IOEvent :=
  match fuel with
  | O => (lastErr, [])
  | S fuel' =>
      let pause := if Nat.ltb 0 attempt then [Sleep backoff] else [] in
      let backoff' :=
        if Nat.ltb 0 attempt then MinDuration (backoff * 2) maxBackoff
        else backoff in
      match send attempt with
      | Ok tt => (Ok tt, pause ++ [SendAttempt attempt])
      | Error e =>
          if negb (isRetryableError e)
          then (Error e, pause ++ [SendAttempt attempt])
          else
            let '(r, tr) := retry_loop fuel' (S attempt) backoff' (Error e) send in
            (r, pause ++ [SendAttempt attempt] ++ tr)
      end
  end.

Definition sendWithRetry (send : nat -> result unit) : result unit * list IOEvent :=
  retry_loop maxRetries 0 initialBackoff (Ok tt) send.

Definition sleeps (tr : list IOEvent) : list Z :=
  flat_map (fun ev => match ev with Sleep d => [d] | SendAttempt _ => [] end) tr.
Definition sends (tr : list IOEvent) : list nat :=
  flat_map (fun ev => match ev with Sleep _ => [] | SendAttempt i => [i] end) tr.

Section Shipper.

Variable Event : Type.
(** [eventsToJSONL]: the NDJSON encoding of a batch. *)
Variable eventsToJSONL : list Event -> result string.

(** The state [shipBatch] reads and writes. *)
Record Shipper := mkShipper {
  sh_bucket : LeakyBucket;
  sh_buffer : RingBuffer Event;
  sh_breaker : Breaker;
  EventsShipped : Z;
  EventsDropped : Z;
  ShippingErrors : Z;
  BatchesSent : Z
}.

Definition with_breaker (s : Shipper) (b : Breaker) : Shipper :=
  mkShipper (sh_bucket s) (sh_buffer s) b (EventsShipped s) (EventsDropped s)
            (ShippingErrors s) (BatchesSent s).

Definition with_bucket (s : Shipper) (lb : LeakyBucket) : Shipper :=
  mkShipper lb (sh_buffer s) (sh_breaker s) (EventsShipped s) (EventsDropped s)
            (ShippingErrors s) (BatchesSent s).

(** [for _, event := range events { if !s.buffer.Add(event) { dropped++ } }] *)
Definition rebuffer (s : Shipper) (events : list Event) : Shipper :=
  fold_left
    (fun s ev =>
       let '(ok, buf) := Add Event (sh_buffer s) ev in
       mkShipper (sh_bucket s) buf (sh_breaker s) (EventsShipped s)
                 (if ok then EventsDropped s else EventsDropped s + 1)
                 (ShippingErrors s) (BatchesSent s))
    events s.

(** The network as [shipBatch] meets it: the outcome of each POST and the
    wall time the POSTs take together. *)
Record Network := mkNetwork {
  net_send : nat -> result unit;
  net_elapsed : Z
}.

(** [shipBatch] entered at instant [now]; returns the new state and the
    sleeps and POSTs it performed. *)
Definition shipBatch (s : Shipper) (now : Z) (net : Network) (events : list Event)
  : Shipper * list IOEvent :=
  let '(open, br) := isCircuitOpen (sh_breaker s) now in
  let s := with_breaker s br in
  if open then (rebuffer s events, [])
  else
    let '(wait, lb) := WaitTime (sh_bucket s) 1 now in
    let pause := if 0 <? wait then [Sleep wait] else [] in
    let now := if 0 <? wait then now + wait else now in
    let '(ok, lb) := Allow lb 1 now in
    let s := with_bucket s lb in
    if negb ok then (rebuffer s events, pause)
    else match eventsToJSONL events with
         | Error _ =>
             (mkShipper (sh_bucket s) (sh_buffer s) (sh_breaker s) (EventsShipped s)
                        (EventsDropped s + Z.of_nat (length events))
                        (ShippingErrors s) (BatchesSent s), pause)
         | Ok _ =>
             let '(r, tr) := sendWithRetry (net_send net) in
             let tEnd := now + fold_right Z.add 0 (sleeps tr) + net_elapsed net in
             match r with
             | Error _ =>
                 let s := with_breaker s (recordFailure (sh_breaker s) tEnd) in
                 let s := mkShipper (sh_bucket s) (sh_buffer s) (sh_breaker s)
                                    (EventsShipped s) (EventsDropped s)
                                    (ShippingErrors s + 1) (BatchesSent s) in
                 (rebuffer s events, pause ++ tr)
             | Ok _ =>
                 (mkShipper (sh_bucket s) (sh_buffer s) (recordSuccess (sh_breaker s))
                            (EventsShipped s + Z.of_nat (length events))
                            (EventsDropped s) (ShippingErrors s) (BatchesSent s + 1),
                  pause ++ tr)
             end
         end.

End Shipper.

(* ------------------------------------------------------------------ *)
(** ** api: the token manager (api/token_manager.go) *)

(** Go's zero [time.Time] (January 1, year 1, UTC) in Unix nanoseconds. *)
Definition ZeroTime : Z := -62135596800 * Second.

Record BootstrapResponse := mkBootstrapResponse {
  AccessToken : string;
  ExpiresIn : Z;
  ConfigURL : string;
  LogsURL : string
}.

(** What [bootstrapClient.Bootstrap] returns: a response, or an error that
    [IsPermanentError] classifies (a [*PermanentError] for HTTP 410). *)
Inductive BootstrapOutcome :=
| BootOk (resp : BootstrapResponse)
| BootErr (permanent : bool) (msg : string).

Record TokenManager := mkTokenManager {
  currentToken : string;
  tokenExpiry : Z;
  configURL : string;
  logsURL : string;
  deploymentDeleted : bool
}.

Definition NewTokenManager : TokenManager :=
  mkTokenManager "" ZeroTime "" "" false.

Definition set_deleted (tm : TokenManager) : TokenManager :=
  mkTokenManager (currentToken tm) (tokenExpiry tm) (configURL tm) (logsURL tm) true.

Definition store_response (tm : TokenManager) (now : Z) (resp : BootstrapResponse)
  : TokenManager :=
  mkTokenManager (AccessToken resp) (now + wrap64 (ExpiresIn resp * Second))
                 (ConfigURL resp) (LogsURL resp) (deploymentDeleted tm).

Definition Initialize (tm : TokenManager) (now : Z) (out : BootstrapOutcome)
  : TokenManager * result unit :=
  match out with
  | BootErr permanent msg =>
      (if permanent then set_deleted tm else tm,
       Error ("initial bootstrap failed: " ++ msg))
  | BootOk resp => (store_response tm now resp, Ok tt)
  end.

Definition refresh (tm : TokenManager) (now : Z) (out : BootstrapOutcome)
  : TokenManager * result unit :=
  match out with
  | BootErr true msg => (set_deleted tm, Error msg)
  | BootErr false msg => (tm, Error ("token refresh failed: " ++ msg))
  | BootOk resp => (store_response tm now resp, Ok tt)
  end.

Definition GetTokenWithMinValidity (tm : TokenManager) (now minValidity : Z)
  (out : BootstrapOutcome) : TokenManager * (string * result unit) :=
  let timeRemaining := tokenExpiry tm - now in
  if minValidity <? timeRemaining then (tm, (currentToken tm, Ok tt))
  else let '(tm', r) := refresh tm now out in (tm', (currentToken tm', r)).

Definition ForceRefresh (tm : TokenManager) (now : Z) (out : BootstrapOutcome)
  : TokenManager * result unit :=
  refresh tm now out.

Definition IsDeploymentDeleted (tm : TokenManager) : bool := deploymentDeleted tm.

(** The refresh goroutine: not started, waiting on its timer, or returned. *)
Inductive RefreshLoop := LoopNotStarted | LoopWaiting | LoopExited.

(** Everything that reaches the token manager: the public calls, the start
    of the refresh goroutine, its timer firing, and its cancellation. *)
Inductive TMOp :=
| TInitialize (now : Z) (out : BootstrapOutcome)
| TStartRefreshLoop
| TTimerFire (now : Z) (out : BootstrapOutcome)
| TCancel
| TGetTokenWithMinValidity (now minValidity : Z) (out : BootstrapOutcome)
| TForceRefresh (now : Z) (out : BootstrapOutcome)
| TRead.

Definition tm_step (st : TokenManager * RefreshLoop) (op : TMOp)
  : TokenManager * RefreshLoop :=
  let '(tm, loop) := st in
  match op with
  | TInitialize now out => (fst (Initialize tm now out), loop)
  | TStartRefreshLoop =>
      match loop with
      | LoopNotStarted =>
          if deploymentDeleted tm then (tm, LoopExited) else (tm, LoopWaiting)
      | _ => (tm, loop)
      end
  | TTimerFire now out =>
      match loop with
      | LoopWaiting =>
          if deploymentDeleted tm then (tm, LoopExited)
          else (fst (refresh tm now out), LoopWaiting)
      | _ => (tm, loop)
      end
  | TCancel => (tm, match loop with LoopWaiting => LoopExited | l => l end)
  | TGetTokenWithMinValidity now minV out =>
      (fst (GetTokenWithMinValidity tm now minV out), loop)
  | TForceRefresh now out => (fst (ForceRefresh tm now out), loop)
  | TRead => (tm, loop)
  end.

Definition tm_run (st : TokenManager * RefreshLoop) (ops : list TMOp)
  : TokenManager * RefreshLoop :=
  fold_left tm_step ops st.

(* ------------------------------------------------------------------ *)
(** ** An IPv4-only instance of the library functions

    Concrete stand-ins for [netip.ParseAddr], [netip.ParsePrefix],
    [netip.Prefix.Contains] and [strings.TrimSpace] restricted to dotted-quad
    IPv4 text and ASCII white space; used to run the definitions on concrete
    inputs. *)

(** [strings.Split(s, sep)]. *)
Fixpoint split_on (sep : ascii) (s : string) : list string :=
  match s with
  | EmptyString => [EmptyString]
  | String c r =>
      if Ascii.eqb c sep then EmptyString :: split_on sep r
      else match split_on sep r with
           | x :: xs => String c x :: xs
           | [] => [String c EmptyString]
           end
  end.

Definition digit_value (c : ascii) : option Z :=
  let n := Z.of_nat (nat_of_ascii c) in
  if (48 <=? n) && (n <=? 57) then Some (n - 48) else None.

Fixpoint decimal_aux (s : string) (acc : Z) : option Z :=
  match s with
  | EmptyString => Some acc
  | String c r =>
      match digit_value c with
      | Some d => decimal_aux r (acc * 10 + d)
      | None => None
      end
  end.

(** A decimal field: non-empty, at most three digits, no leading zero. *)
Definition parse_field (s : string) : option Z :=
  match s with
  | EmptyString => None
  | String "0" (String _ _) => None
  | _ => if Nat.leb (String.length s) 3 then decimal_aux s 0 else None
  end.

Definition parse_octet (s : string) : option Z :=
  match parse_field s with
  | Some v => if v <=? 255 then Some v else None
  | None => None
  end.

Definition ParseIPv4 (s : string) : result Z :=
  match split_on "." s with
  | [a; b; c; d] =>
      match parse_octet a, parse_octet b, parse_octet c, parse_octet d with
      | Some a, Some b, Some c, Some d =>
          Ok (a * 2 ^ 24 + b * 2 ^ 16 + c * 2 ^ 8 + d)
      | _, _, _, _ => Error "ParseAddr: unable to parse IP"
      end
  | _ => Error "ParseAddr: unable to parse IP"
  end.

Definition ParseIPv4Prefix (s : string) : result (Z * Z) :=
  match split_on "/" s with
  | [a; bits] =>
      match ParseIPv4 a, parse_field bits with
      | Ok x, Some n => if n <=? 32 then Ok (x, n) else Error "ParsePrefix: bad bits"
      | _, _ => Error "ParsePrefix: bad prefix"
      end
  | _ => Error "ParsePrefix: no '/'"
  end.

Definition IPv4PrefixContains (p : Z * Z) (x : Z) : bool :=
  Z.shiftr (fst p) (32 - snd p) =? Z.shiftr x (32 - snd p).

Definition is_ascii_space (c : ascii) : bool :=
  let n := nat_of_ascii c in
  (Nat.eqb n 32 || Nat.eqb n 9 || Nat.eqb n 10 || Nat.eqb n 11 ||
   Nat.eqb n 12 || Nat.eqb n 13)%bool.

Fixpoint trim_left (s : string) : string :=
  match s with
  | String c r => if is_ascii_space c then trim_left r else s
  | EmptyString => EmptyString
  end.

Definition string_rev (s : string) : string :=
  string_of_list_ascii (rev_append (list_ascii_of_string s) []).

Definition TrimSpaceASCII (s : string) : string :=
  string_rev (trim_left (string_rev (trim_left s))).

(** [parseEDL] with the IPv4 instance. *)
Definition parseEDL4 : string -> result (IPSet Z (Z * Z) * Z) :=
  parseEDL Z (Z * Z) ParseIPv4Prefix ParseIPv4 TrimSpaceASCII.

(** A request carrying only the given headers. *)
Definition request_with (hdrs : list (string * string)) (remote : string) : Request :=
  mkRequest (fun k => match list_find (fun kv => fst kv = k) hdrs with
                      | Some (_, (_, v)) => v
                      | None => ""
                      end) remote.

(** [net.SplitHostPort] for "host:port" without brackets. *)
Definition SplitHostPort4 (s : string) : result string :=
  match split_on ":" s with
  | [h; _] => Ok h
  | _ => Error "missing port in address"
  end.

(** Concrete inputs for the handler: a blocklist deployment containing
    10.0.0.0/8 and a request forwarded for 10.1.2.3. *)
Definition cfg_initial : Config := mkConfig "" "" 0 false.
Definition ec_blocklist : EDLConfig :=
  mkEDLConfig "blocklist" 300 ["https://edl.example/combined.txt"] true.
Definition set_10_8 : Z -> bool := IPv4PrefixContains (167772160, 8).
Definition req_xff : Request :=
  request_with [("X-Forwarded-For", "10.1.2.3, 198.51.100.7")] "192.0.2.1:4711".

(** A line of 65536 digits: longer than the scanner's buffer. *)
Fixpoint repeat_ascii (n : nat) (c : ascii) : string :=
  match n with O => EmptyString | S n' => String c (repeat_ascii n' c) end.
Definition long_line : string := repeat_ascii 65536 "1".
Definition edl_with_long_line : string :=
  long_line ++ String "010" "10.0.0.0/8" ++ String "010" "".
Definition edl_sample : string :=
  "# header" ++ String "010" "10.0.0.0/8" ++ String "010" "" ++ String "010"
  "203.0.113.7  " ++ String "010" "not-an-address" ++ String "010" "".

Arguments mkHandler {Addr}. Arguments matcher {Addr}. Arguments isBlocklist {Addr}.
Arguments deploymentEnabled {Addr}. Arguments ipHeaderOverride {Addr}.
Arguments NewHandler {Addr}. Arguments SetIPHeaderOverride {Addr}.
Arguments extractClientIP {Addr}. Arguments evaluateAccess {Addr}.
Arguments serveForbidden {Addr}. Arguments ServeHTTP {Addr}.
Arguments EPrefix {Addr Prefix}. Arguments EAddr {Addr Prefix}.
Arguments entry_contains {Addr _ Prefix}. Arguments IPSetContains {Addr _ Prefix}.
Arguments parse_line {Addr Prefix}. Arguments parseEDL {Addr Prefix}.
Arguments accepted_entry {Addr Prefix}. Arguments accepted_entries {Addr Prefix}.
Arguments mkMatcher {Addr Prefix}. Arguments m_ipset {Addr Prefix}.
Arguments m_count {Addr Prefix}. Arguments MatcherUpdate {Addr Prefix}.
Arguments mkUpdater {Addr Prefix}. Arguments u_matcher {Addr Prefix}.
Arguments lastUpdate {Addr Prefix}. Arguments lastError {Addr Prefix}.
Arguments updateCount {Addr Prefix}. Arguments NewUpdater {Addr Prefix}.
Arguments updateNow {Addr Prefix}. Arguments GetStatus {Addr Prefix}.
Arguments Ready {Addr Prefix}.
Arguments mkRingBuffer {E}. Arguments rb_buffer {E}. Arguments rb_capacity {E}.
Arguments rb_head {E}. Arguments rb_tail {E}. Arguments rb_size {E}.
Arguments NewRingBuffer {E}. Arguments Add {E}. Arguments pop_head {E}.
Arguments Get {E}. Arguments drain_loop {E}. Arguments Drain {E}.
Arguments DrainAll {E}. Arguments Size {E}. Arguments OpAdd {E}.
Arguments OpGet {E}. Arguments OpDrain {E}. Arguments OpDrainAll {E}.
Arguments OpSize {E}. Arguments OutAdd {E}. Arguments OutGet {E}.
Arguments OutDrain {E}. Arguments OutSize {E}. Arguments rb_step {E}.
Arguments rb_run {E}. Arguments added {E}. Arguments removed {E}.
Arguments queue_run {E}. Arguments queue_step {E}. Arguments OutPanic {E}.
Arguments is_panic {E}. Arguments rb_rel {E}.
Arguments mkShipper {Event}. Arguments sh_bucket {Event}. Arguments sh_buffer {Event}.
Arguments sh_breaker {Event}. Arguments EventsShipped {Event}.
Arguments EventsDropped {Event}. Arguments ShippingErrors {Event}.
Arguments BatchesSent {Event}. Arguments with_breaker {Event}.
Arguments with_bucket {Event}. Arguments rebuffer {Event}.
Arguments shipBatch {Event}.

(* ------------------------------------------------------------------ *)
(** ** logs: intake, batching loop and shutdown flush of the shipper *)

(** [utils.MinInt]. *)
Definition MinInt (a b : Z) : Z := if a <? b then a else b.

Definition defaultBatchSize : Z := 100.
Definition defaultFlushInterval : Z := 10 * Second.

Record LogShipperConfig := mkLogShipperConfig {
  BatchSize : Z;
  FlushInterval : Z;
  BucketCapacity : Z;
  RefillRate : Z;
  BufferSize : Z
}.

(** The settings [NewLogShipper] writes back into its configuration. *)
Definition normalizeConfig (c : LogShipperConfig) : LogShipperConfig :=
  mkLogShipperConfig
    (if BatchSize c <=? 0 then defaultBatchSize else BatchSize c)
    (if FlushInterval c <=? 0 then defaultFlushInterval else FlushInterval c)
    (if BucketCapacity c <=? 0 then 1000 else BucketCapacity c)
    (if RefillRate c <=? 0 then 100 else RefillRate c)
    (if BufferSize c <=? 0 then 10000 else BufferSize c).

(** The capacity of [eventChan]. *)
Definition eventChanCap : nat := 1000.

Section LogShipper.

Variable Event : Type.
Variable eventsToJSONL : list Event -> result string.
(** The nil [*AccessEvent]: what an empty slot of the ring buffer reads as. *)
Variable nilEvent : Event.

(** [LogShipper]: the state [shipBatch] works on, the event channel (its
    queued events, and whether [Stop] has closed it), [batchSize] and
    [flushInterval]. *)
Record LogShipper := mkLogShipper {
  ls_state : Shipper Event;
  eventChan : list Event;
  chanClosed : bool;
  batchSize : Z;
  flushInterval : Z
}.

(** [NewLogShipper] at instant [now]: the bucket starts full, the buffer
    empty, the breaker closed, the counters at zero. *)
Definition NewLogShipper (config : LogShipperConfig) (now : Z) : LogShipper :=
  let c := normalizeConfig config in
  mkLogShipper
    (mkShipper (NewLeakyBucket (BucketCapacity c) (RefillRate c) now)
               (NewRingBuffer (Z.to_nat (BufferSize c)))
               (NewBreaker ZeroTime) 0 0 0 0)
    [] false (BatchSize c) (FlushInterval c).

Definition with_buffer (s : Shipper Event) (buf : RingBuffer Event) : Shipper Event :=
  mkShipper (sh_bucket s) buf (sh_breaker s) (EventsShipped s) (EventsDropped s)
            (ShippingErrors s) (BatchesSent s).

(** [SendEvent]: the non-blocking send on [eventChan], else [buffer.Add],
    else one more dropped event.  [None] is the panic of a send on the
    channel [Stop] has closed. *)
Definition SendEvent (ls : LogShipper) (event : Event) : option LogShipper :=
  if chanClosed ls then None
  else if Nat.ltb (length (eventChan ls)) eventChanCap
  then Some (mkLogShipper (ls_state ls) (eventChan ls ++ [event]) false
                          (batchSize ls) (flushInterval ls))
  else
    let s := ls_state ls in
    let '(ok, buf) := Add (sh_buffer s) event in
    Some (mkLogShipper
            (mkShipper (sh_bucket s) buf (sh_breaker s) (EventsShipped s)
                       (if ok then EventsDropped s else EventsDropped s + 1)
                       (ShippingErrors s) (BatchesSent s))
            (eventChan ls) false (batchSize ls) (flushInterval ls)).

(** The case of the [select] in [processEvents] that fires: [ctx.Done()],
    a received event, the closed channel, or a tick. *)
Inductive PEInput :=
| PERecv (e : Event)
| PEClosed
| PETick
| PEDone.

(** What [processEvents] calls, in order. *)
Inductive PECall :=
| CallShipBatch (batch : list Event)
| CallProcessBuffered.

Definition ship_pending (batch : list Event) : list PECall :=
  match batch with [] => [] | _ => [CallShipBatch batch] end.

(** The loop of [processEvents] with the pending [batch]; the boolean says
    whether the goroutine has returned. *)
Fixpoint processEvents_loop (bs : Z) (batch : list Event) (inputs : list PEInput)
  : list PECall * bool :=
  match inputs with
  | [] => ([], false)
  | PEDone :: _ | PEClosed :: _ => (ship_pending batch, true)
  | PERecv e :: rest =>
      let batch := batch ++ [e] in
      if bs <=? Z.of_nat (length batch) then
        let '(calls, ret) := processEvents_loop bs [] rest in
        (CallShipBatch batch :: calls, ret)
      else processEvents_loop bs batch rest
  | PETick :: rest =>
      let '(calls, ret) := processEvents_loop bs [] rest in
      (ship_pending batch ++ CallProcessBuffered :: calls, ret)
  end.

(** [processEvents]; [None] is a panic: that of [time.NewTicker] on a
    non-positive [flushInterval], then that of [make] with a negative
    capacity. *)
Definition processEvents (ls : LogShipper) (inputs : list PEInput)
  : option (list PECall * bool) :=
  if flushInterval ls <=? 0 then None
  else if batchSize ls <? 0 then None
  else Some (processEvents_loop (batchSize ls) [] inputs).

Definition slot_event (o : option Event) : Event :=
  match o with Some e => e | None => nilEvent end.

(** [processBufferedEvents] at instant [now]: the shipper after it, the
    sleeps and POSTs of [shipBatch], and the batch handed to [shipBatch]
    ([[]] when it is not called).  [None] is [Drain]'s panic. *)
Definition processBufferedEvents (ls : LogShipper) (now : Z) (net : Network)
  : option (Shipper Event * list IOEvent * list Event) :=
  let s := ls_state ls in
  match Drain (sh_buffer s) (batchSize ls) with
  | None => None
  | Some (items, buf) =>
      let s := with_buffer s buf in
      let events := map slot_event items in
      match events with
      | [] => Some (s, [], [])
      | _ :: _ =>
          let '(s', tr) := shipBatch eventsToJSONL s now net events in
          Some (s', tr, events)
      end
  end.

(** How [flushBuffer] ends: it returns (the shipper and the batches it
    shipped, in order), it panics, or it is still looping. *)
Inductive FlushOutcome :=
| FlushDone (s : Shipper Event) (batches : list (list Event))
| FlushPanic
| FlushRunning.

(** The loop of [flushBuffer], for at most [fuel] iterations; the [k]-th
    [shipBatch] runs at instant [fst (env k)] on network [snd (env k)]. *)
Fixpoint flush_loop (fuel : nat) (bs : Z) (s : Shipper Event)
  (events : list Event) (env : nat -> Z * Network) (k : nat) : FlushOutcome :=
  match events with
  | [] => FlushDone s []
  | _ :: _ =>
      match fuel with
      | O => FlushRunning
      | S fuel' =>
          let n := MinInt (Z.of_nat (length events)) bs in
          (* events[:n] panics when n < 0 *)
          if n <? 0 then FlushPanic
          else
            let batch := take (Z.to_nat n) events in
            let rest := drop (Z.to_nat n) events in
            let '(s', _) := shipBatch eventsToJSONL s (fst (env k)) (snd (env k)) batch in
            match flush_loop fuel' bs s' rest env (S k) with
            | FlushDone s'' batches => FlushDone s'' (batch :: batches)
            | o => o
            end
      end
  end.

(** [flushBuffer], run for at most [fuel] iterations of its loop. *)
Definition flushBuffer (fuel : nat) (ls : LogShipper) (env : nat -> Z * Network)
  : FlushOutcome :=
  let s := ls_state ls in
  let '(items, buf) := DrainAll (sh_buffer s) in
  flush_loop fuel (batchSize ls) (with_buffer s buf) (map slot_event items) env 0.

End LogShipper.

Arguments mkLogShipper {Event}. Arguments ls_state {Event}. Arguments eventChan {Event}.
Arguments chanClosed {Event}. Arguments batchSize {Event}. Arguments flushInterval {Event}.
Arguments NewLogShipper {Event}. Arguments with_buffer {Event}. Arguments SendEvent {Event}.
Arguments PERecv {Event}. Arguments PEClosed {Event}. Arguments PETick {Event}.
Arguments PEDone {Event}. Arguments CallShipBatch {Event}.
Arguments CallProcessBuffered {Event}. Arguments ship_pending {Event}.
Arguments processEvents_loop {Event}. Arguments processEvents {Event}.
Arguments slot_event {Event}. Arguments processBufferedEvents {Event}.
Arguments FlushDone {Event}. Arguments FlushPanic {Event}. Arguments FlushRunning {Event}.
Arguments flush_loop {Event}. Arguments flushBuffer {Event}.

(* ------------------------------------------------------------------ *)
(** ** logs: the metrics collector (logs/metrics.go) *)

(** The four [ShipperMetrics] counters, as one round of [Load]s reads
    them. *)
Record Counters := mkCounters {
  cShipped : Z;
  cDropped : Z;
  cErrors : Z;
  cBatches : Z
}.

(** [MetricsCollector]: the [last*] fields, and the values of the four
    Prometheus counters it feeds. *)
Record MetricsCollector := mkMetricsCollector {
  lastCounters : Counters;
  exported : Counters
}.

Definition zeroCounters : Counters := mkCounters 0 0 0 0.

Definition NewMetricsCollector : MetricsCollector :=
  mkMetricsCollector zeroCounters zeroCounters.

(** [Counter.Add(v)]; [None] is its panic on a negative [v]. *)
Definition counterAdd (c v : Z) : option Z :=
  if v <? 0 then None else Some (c + v).

(** [updateMetrics] with a live shipper: [first] is what the [Load]s of the
    [Add] lines read, [second] what the [Load]s of the [last*] lines read
    afterwards.  [None] is a panic of [Counter.Add]. *)
Definition updateMetrics (mc : MetricsCollector) (first second : Counters)
  : option MetricsCollector :=
  let l := lastCounters mc in
  let x := exported mc in
  match counterAdd (cShipped x) (cShipped first - cShipped l),
        counterAdd (cDropped x) (cDropped first - cDropped l),
        counterAdd (cErrors x) (cErrors first - cErrors l),
        counterAdd (cBatches x) (cBatches first - cBatches l) with
  | Some a, Some b, Some c, Some d =>
      Some (mkMetricsCollector second (mkCounters a b c d))
  | _, _, _, _ => None
  end.

(** The ticks of [collectMetrics]: each one reads a pair [(first, second)]. *)
Fixpoint collect_run (mc : MetricsCollector) (reads : list (Counters * Counters))
  : option MetricsCollector :=
  match reads with
  | [] => Some mc
  | (f, s) :: rest =>
      match updateMetrics mc f s with
      | Some mc' => collect_run mc' rest
      | None => None
      end
  end.

(* ------------------------------------------------------------------ *)
(** ** edl: the fetcher's retry loop (edl/fetcher.go) *)

Section Fetcher.

(** [*netipx.IPSet]. *)
Variable IPSetT : Type.

(** What [FetchWithRetry] does, in order: wait on [time.After], or one
    [f.fetch]. *)
Inductive FetchEvent :=
| FWait (d : Z)
| FFetch (attempt : nat).

(** The loop from iteration [attempt] on, with [fuel] iterations left;
    [cancelled i] says that [ctx.Done()] wins the [select] before attempt
    [i], [fetch i] is the outcome of the [i]-th [f.fetch].  A [nil] set is
    [None]. *)
Fixpoint fetch_loop (fuel attempt : nat) (RetryDelay : Z) (lastErr : option string)
  (ctxErr : string) (cancelled : nat -> bool) (fetch : nat -> result (IPSetT * Z))
  : result (option IPSetT * Z) * list FetchEvent :=
  match fuel with
  | O => (match lastErr with None => Ok (None, 0) | Some e => Error e end, [])
  | S fuel' =>
      if Nat.ltb 0 attempt && cancelled attempt then (Error ctxErr, [])
      else
        let pause :=
          if Nat.ltb 0 attempt
          then [FWait (wrap64 (RetryDelay * Z.of_nat attempt))] else [] in
        match fetch attempt with
        | Ok (set, count) => (Ok (Some set, count), pause ++ [FFetch attempt])
        | Error e =>
            let '(r, tr) :=
              fetch_loop fuel' (S attempt) RetryDelay (Some e) ctxErr cancelled fetch in
            (r, pause ++ FFetch attempt :: tr)
        end
  end.

Definition FetchWithRetry (MaxRetryAttempts RetryDelay : Z) (ctxErr : string)
  (cancelled : nat -> bool) (fetch : nat -> result (IPSetT * Z))
  : result (option IPSetT * Z) * list FetchEvent :=
  fetch_loop (Z.to_nat MaxRetryAttempts) 0 RetryDelay None ctxErr cancelled fetch.

End Fetcher.


Arguments fetch_loop {IPSetT}. Arguments FetchWithRetry {IPSetT}.

(* ------------------------------------------------------------------ *)
(** ** api and config: the configuration request and service start-up *)

(** A Go [error] value: one made by [errors.New], or a [*PermanentError]. *)
Inductive GoError :=
| PlainError (msg : string)
| PermanentError (StatusCode : Z) (Message : string).

Definition GoErrorString (e : GoError) : string :=
  match e with
  | PlainError msg => msg
  | PermanentError _ m => "permanent error: " ++ m
  end.

Definition IsPermanentError (e : GoError) : bool :=
  match e with PermanentError _ _ => true | PlainError _ => false end.

(** What [GetEDLConfig] returns. *)
Inductive CfgResult :=
| CfgOk (ec : EDLConfig)
| CfgErr (e : GoError).

(** The response of [httpClient.Do]: its status and what [io.ReadAll]
    makes of its body. *)
Record HTTPResponse := mkHTTPResponse {
  RespStatus : Z;
  RespBody : result string
}.

Section ConfigClient.

(** [json.Unmarshal] into an [ErrorResponse] (its [Code]) and into an
    [EDLConfig]; [http.NewRequestWithContext]'s error on a URL. *)
Variable UnmarshalErrorResponse : string -> option string.
Variable UnmarshalEDLConfig : string -> result EDLConfig.
Variable NewRequestErr : string -> option string.

(** [&EDLConfig{Enabled: false, Purpose: "disabled"}]. *)
Definition disabledEDLConfig : EDLConfig := mkEDLConfig "disabled" 0 [] false.

(** [GetEDLConfig] with the token manager [tm]; [resp] is the outcome of
    [httpClient.Do]. *)
Definition GetEDLConfig (tm : TokenManager) (resp : result HTTPResponse) : CfgResult :=
  let configURL := configURL tm in
  if String.eqb configURL "" then CfgErr (PlainError "config URL not available")
  else match NewRequestErr configURL with
  | Some e => CfgErr (PlainError ("failed to create config request: " ++ e))
  | None =>
    if String.eqb (currentToken tm) "" then CfgErr (PlainError "no access token available")
    else match resp with
    | Error e => CfgErr (PlainError ("config request failed: " ++ e))
    | Ok r =>
      match RespBody r with
      | Error e => CfgErr (PlainError ("failed to read response body: " ++ e))
      | Ok body =>
        let st := RespStatus r in
        if (st =? 404) || (st =? 403) || (st =? 410) then
          let special :=
            match UnmarshalErrorResponse body with
            | Some code =>
                String.eqb code "DEPLOYMENT_DISABLED" || String.eqb code "DEPLOYMENT_DELETED"
            | None => false
            end in
          if special then CfgOk disabledEDLConfig
          else if st =? 410 then CfgErr (PermanentError st body)
          else CfgErr (PlainError ("config request failed: " ++ body))
        else if negb (st =? 200) then CfgErr (PlainError ("config request failed: " ++ body))
        else match UnmarshalEDLConfig body with
             | Error e => CfgErr (PlainError ("failed to decode config response: " ++ e))
             | Ok c => CfgOk (mkEDLConfig (Purpose c) (UpdateFrequencySeconds c) (Combined c) true)
             end
      end
    end
  end.

End ConfigClient.

(** [InitializeServices] at instant [now]: [boot] is the outcome of the
    bootstrap request, [getConfig] that of [GetEDLConfig] on the token
    manager it is given.  It returns the configuration, the token manager
    (once created) and the error.  [parseBootstrapToken] never fails and
    sets only [DeviceID]; the refresh goroutine is not modelled. *)
Definition InitializeServices (BootstrapToken : string) (cfg : Config) (now : Z)
  (boot : BootstrapOutcome) (getConfig : TokenManager -> CfgResult)
  : Config * option TokenManager * result unit :=
  if String.eqb BootstrapToken "" then
    (cfg, None, Error "ELLIO_BOOTSTRAP token is required")
  else
    let tm := NewTokenManager in
    match Initialize tm now boot with
    | (tm, Error msg) =>
        (* Initialize returns errors.New(...) *)
        let err := PlainError msg in
        if IsPermanentError err then (setDeploymentDisabled cfg, Some tm, Ok tt)
        else (cfg, Some tm, Error ("failed to bootstrap: " ++ GoErrorString err))
    | (tm, Ok _) =>
        match getConfig tm with
        | CfgErr err =>
            if IsPermanentError err then (setDeploymentDisabled cfg, Some tm, Ok tt)
            else (cfg, Some tm, Error ("failed to fetch EDL config: " ++ GoErrorString err))
        | CfgOk ec => (applyEDLConfig cfg ec, Some tm, Ok tt)
        end
    end.

(* ------------------------------------------------------------------ *)
(** ** logs and auth: the access event of a denied request *)

Record InternalInfo := mkInternalInfo {
  ProxyPath : string;
  IngressHost : string;
  DebugHeaders : list (string * string)
}.

Record AccessEvent := mkAccessEvent {
  Timestamp : Z;
  EventType : string;
  Outcome : string;
  Reason : string;
  ev_StatusCode : Z;
  DeviceID : string;
  ReqMethod : string;
  ReqHost : string;
  ReqPath : string;
  ReqScheme : string;
  ClientIP : string;
  UserAgent : string;
  PolicyMode : string;
  Internal : option InternalInfo
}.

Definition debugKeys : list string :=
  ["X-Forwarded-Server"; "X-Forwarded-Port"; "X-Real-Ip"; "X-Forwarded-Method"].

(** [NewAccessEvent] at instant [now]; [headers key] is the map's value at
    [key], "" when absent (so [ok && val != ""] is [val != ""]).  The
    [Headers] map is listed in the order of [debugKeys]. *)
Definition NewAccessEvent (now : Z) (sourceIP : string) (headers : string -> string)
  (deviceID edlMode : string) (allowed : bool) (responseCode : Z) : AccessEvent :=
  let outcome := if allowed then "allowed" else "blocked" in
  let reason :=
    if negb allowed then
      if String.eqb edlMode "allowlist" then "not_in_allowlist"
      else if String.eqb edlMode "blocklist" then "in_blocklist"
      else "in_allowlist"
    else
      if String.eqb edlMode "allowlist" then "in_allowlist"
      else if String.eqb edlMode "blocklist" then "not_in_blocklist"
      else "in_allowlist" in
  let internal :=
    if negb (String.eqb (headers "X-Forwarded-Server") "")
       || negb (String.eqb (headers "X-Real-Ip") "") then
      let debugHeaders :=
        flat_map (fun key => let val := headers key in
                             if String.eqb val "" then [] else [(key, val)])
                 debugKeys in
      match debugHeaders with
      | [] => None
      | _ :: _ => Some (mkInternalInfo "/auth" (headers "X-Forwarded-Host") debugHeaders)
      end
    else None in
  mkAccessEvent now "access_decision" outcome reason responseCode deviceID
    (headers "X-Forwarded-Method") (headers "X-Forwarded-Host")
    (headers "X-Forwarded-Uri") (headers "X-Forwarded-Proto")
    sourceIP (headers "User-Agent") edlMode internal.

Section HandlerEvents.

Variable Addr : Type.
Variable ParseAddr : string -> result Addr.
Variable TrimSpace : string -> string.
Variable SplitHostPort : string -> result string.

(** [sendAccessEvent]: the event it hands to [SendEvent].  The request's
    headers are read through [HeaderGet] (their first values, under the
    canonical keys [NewAccessEvent] looks up). *)
Definition sendAccessEvent (h : Handler Addr) (deviceID : string) (now : Z)
  (clientIP : string) (r : Request) (allowed : bool) : AccessEvent :=
  let edlMode := if isBlocklist h then "blocklist" else "allowlist" in
  let responseCode := if allowed then StatusOK else StatusForbidden in
  NewAccessEvent now clientIP (HeaderGet r) deviceID edlMode allowed responseCode.

(** [ServeHTTP] with the handler's [logShipper] (set or nil) and
    [deviceID]: the status it writes and the event it sends. *)
Definition ServeHTTPLogged (h : Handler Addr) (logShipperSet : bool)
  (deviceID : string) (now : Z) (r : Request) : Z * option AccessEvent :=
  let clientIP := extractClientIP TrimSpace SplitHostPort h r in
  if String.eqb clientIP "" then (StatusBadRequest, None)
  else match evaluateAccess ParseAddr h clientIP with
       | Error _ => (StatusBadRequest, None)
       | Ok true => (StatusOK, None)
       | Ok false =>
           let ev := if logShipperSet
                     then Some (sendAccessEvent h deviceID now clientIP r false)
                     else None in
           (serveForbidden h r, ev)
       end.

End HandlerEvents.

Arguments sendAccessEvent {Addr}. Arguments ServeHTTPLogged {Addr}.

(* ------------------------------------------------------------------ *)
(** ** Vocabulary of the properties *)

(** The delay before the [i]-th POST ([i >= 1]): doubling from 1 s, capped at
    [maxBackoff]. *)
Definition backoff_before (i : nat) : Z :=
  MinDuration (2 ^ (Z.of_nat i - 1) * Second) maxBackoff.

(** POST 0, then for each later attempt its delay and the POST. *)
Definition retry_trace (k : nat) : list IOEvent :=
  SendAttempt 0 :: flat_map (fun i => [Sleep (backoff_before i); SendAttempt i]) (seq 1 k).

(** A server that answers every POST with an error. *)
Definition always_fail : nat -> result unit := fun _ => Error "server error: ".

(** The leaky bucket's invariant: its tokens lie in [0, capacity], and the
    capacity is an int64. *)
Definition bucket_inv (lb : LeakyBucket) : Prop :=
  0 <= tokens lb <= capacity lb /\ capacity lb <= max_int64.

(** Every event the shipper has taken charge of is shipped, dropped (and
    counted) or waiting in the ring buffer. *)
Definition accounted {Event : Type} (s : Shipper Event) : Z :=
  EventsShipped s + EventsDropped s + Z.of_nat (Size (sh_buffer s)).

(** The same count with the events still queued in [eventChan]. *)
Definition intake {Event : Type} (ls : LogShipper Event) : Z :=
  Z.of_nat (length (eventChan ls)) + accounted (ls_state ls).

(** The [select] cases that make [processEvents] return. *)
Definition is_stop {Event : Type} (i : PEInput Event) : bool :=
  match i with PEDone | PEClosed => true | _ => false end.

(** The events [processEvents] received, in order. *)
Definition received {Event : Type} (ins : list (PEInput Event)) : list Event :=
  flat_map (fun i => match i with PERecv e => [e] | _ => [] end) ins.

(** The batches [processEvents] handed to [shipBatch], in order. *)
Definition shipped_batches {Event : Type} (calls : list (PECall Event))
  : list (list Event) :=
  flat_map (fun c => match c with CallShipBatch b => [b] | _ => [] end) calls.

(** A batch as the loops build it: non-empty, at most [bs] events. *)
Definition batch_ok {Event : Type} (bs : Z) (b : list Event) : Prop :=
  b <> [] /\ Z.of_nat (length b) <= bs.

(** The circuit breaker's invariant: the failure count lies in [0, 10] and
    the circuit is open exactly when it is 10. *)
Definition breaker_inv (b : Breaker) : Prop :=
  0 <= failureCount b <= circuitBreakerThreshold /\
  (circuitOpen b = true <-> failureCount b = circuitBreakerThreshold).

(** Attempt [i] of [FetchWithRetry]: after a wait of [RetryDelay * i] when
    [i > 0], one fetch. *)
Definition fetch_step (RetryDelay : Z) (i : nat) : list FetchEvent :=
  (if Nat.ltb 0 i then [FWait (wrap64 (RetryDelay * Z.of_nat i))] else []) ++ [FFetch i].

Definition fetch_trace (RetryDelay : Z) (n : nat) : list FetchEvent :=
  flat_map (fetch_step RetryDelay) (seq 0 n).

(** The four counters the collector exports. *)
Definition counter_fields : list (Counters -> Z) := [cShipped; cDropped; cErrors; cBatches].

(** The reads of one counter by successive ticks never go down: from
    [prev], each tick's first [Load] then its second. *)
Fixpoint loads_monotone (p : Counters -> Z) (prev : Z)
  (reads : list (Counters * Counters)) : Prop :=
  match reads with
  | [] => True
  | (f, s) :: rest => prev <= p f /\ p f <= p s /\ loads_monotone p (p s) rest
  end.

(** The increments of a counter that fell between the two [Load]s of a
    tick. *)
Definition unexported (p : Counters -> Z) (reads : list (Counters * Counters)) : Z :=
  fold_right Z.add 0 (map (fun fs => p (snd fs) - p (fst fs)) reads).

(* ------------------------------------------------------------------ *)
(** ** Concrete inputs of the shipper and the configuration client *)

(** A shipper of [nat] events with batches of 2 and a 4-slot buffer that
    holds 1, 2 and 3. *)
Definition cfg_small : LogShipperConfig := mkLogShipperConfig 2 0 0 0 4.

Definition ls_buffered : LogShipper nat :=
  let ls := NewLogShipper cfg_small 0 in
  mkLogShipper (with_buffer (ls_state ls)
                  (fold_left (fun rb e => snd (Add rb e)) [1; 2; 3]%nat
                     (sh_buffer (ls_state ls))))
               [] false (batchSize ls) (flushInterval ls).

(** A network whose POSTs all succeed at once, and an encoder that never
    fails. *)
Definition net_ok : Network := mkNetwork (fun _ => Ok tt) 0.
Definition json_ok (events : list nat) : result string := Ok "".

(** A token manager after a successful bootstrap. *)
Definition tm_config : TokenManager :=
  store_response NewTokenManager 0
    (mkBootstrapResponse "tok" 3600 "https://api.example/config" "https://api.example/logs").

(* ================================================================== *)
(** * Properties *)

(* ------------------------------------------------------------------ *)
(** ** The access decision *)

Lemma applyEDLConfig_mode cfg ec :
  DeploymentEnabled (applyEDLConfig cfg ec) = true ->
  EDLMode (applyEDLConfig cfg ec) = "allowlist" \/
  EDLMode (applyEDLConfig cfg ec) = "blocklist".
Proof.
  unfold applyEDLConfig. destruct (Enabled ec); simpl; [|discriminate].
  intros _.
  destruct (String.eqb (Purpose ec) "allowlist"); [left; reflexivity|].
  right. repeat (destruct (String.eqb _ _); try reflexivity).
Qed.

Section HandlerFacts.

Variable Addr : Type.
Variable ParseAddr : string -> result Addr.
Variable TrimSpace : string -> string.
Variable SplitHostPort : string -> result string.


(** C9: with the deployment enabled, the blocklist decision for any client IP
    string is the negation of the allowlist decision on the same set (and the
    same error when the string does not parse). *)
Theorem mode_flip_complements (set : Addr -> bool) (clientIP : string) :
  evaluateAccess ParseAddr (NewHandler set "blocklist" true) clientIP =
  match evaluateAccess ParseAddr (NewHandler set "allowlist" true) clientIP with
  | Ok allowed => Ok (negb allowed)
  | Error e => Error e
  end.
Proof.
  unfold evaluateAccess, NewHandler. simpl.
  destruct (ParseAddr clientIP); reflexivity.
Qed.

(** C10: with the deployment not enabled, [evaluateAccess] allows without
    looking at the parser, so any request whose extracted client IP is
    non-empty, parseable or not, is answered 200. *)
Theorem disabled_allows_all (h : Handler Addr) (r : Request)
    (ParseAddr' : string -> result Addr) :
  deploymentEnabled h = false ->
  extractClientIP TrimSpace SplitHostPort h r <> "" ->
  (forall ip, evaluateAccess ParseAddr h ip = Ok true /\
              evaluateAccess ParseAddr h ip = evaluateAccess ParseAddr' h ip) /\
  ServeHTTP ParseAddr TrimSpace SplitHostPort h r = StatusOK.
Proof.
  intros Hdis Hne.
  assert (He : forall P ip, evaluateAccess P h ip = Ok true).
  { intros P ip. unfold evaluateAccess. rewrite Hdis. reflexivity. }
  split.
  - intros ip. rewrite !He. split; reflexivity.
  - unfold ServeHTTP. rewrite He.
    destruct (String.eqb _ _) eqn:E; [|reflexivity].
    apply String.eqb_eq in E. contradiction.
Qed.

End HandlerFacts.


Lemma disabled_allows_all_witness :
  deploymentEnabled (NewHandler set_10_8 "disabled" false) = false /\
  extractClientIP TrimSpaceASCII SplitHostPort4 (NewHandler set_10_8 "disabled" false)
    (request_with [("X-Real-IP", "not-an-ip")] "") <> "" /\
  ServeHTTP ParseIPv4 TrimSpaceASCII SplitHostPort4 (NewHandler set_10_8 "disabled" false)
    (request_with [("X-Real-IP", "not-an-ip")] "") = StatusOK.
Proof.
  assert (H1 : deploymentEnabled (NewHandler set_10_8 "disabled" false) = false)
    by reflexivity.
  assert (H2 : extractClientIP TrimSpaceASCII SplitHostPort4
                 (NewHandler set_10_8 "disabled" false)
                 (request_with [("X-Real-IP", "not-an-ip")] "") <> "")
    by (vm_compute; discriminate).
  split; [exact H1|]. split; [exact H2|].
  exact (proj2 (disabled_allows_all Z ParseIPv4 TrimSpaceASCII SplitHostPort4
                  (NewHandler set_10_8 "disabled" false)
                  (request_with [("X-Real-IP", "not-an-ip")] "") ParseIPv4 H1 H2)).
Defined.

(* ------------------------------------------------------------------ *)
(** ** The token manager's deletion latch *)

Lemma tm_step_keeps_deleted (st : TokenManager * RefreshLoop) (op : TMOp) :
  deploymentDeleted (fst st) = true ->
  deploymentDeleted (fst (tm_step st op)) = true.
Proof.
  destruct st as [tm loop]. simpl. intros Hdel.
  destruct op as [now out| |now out| |now minV out|now out|]; simpl.
  - destruct out as [resp|[] msg]; simpl; first [reflexivity | assumption].
  - destruct loop; simpl; try rewrite Hdel; simpl; first [reflexivity | assumption].
  - destruct loop; simpl; try rewrite Hdel; simpl; first [reflexivity | assumption].
  - assumption.
  - unfold GetTokenWithMinValidity.
    destruct (minV <? tokenExpiry tm - now); [assumption|].
    destruct out as [resp|[] msg]; simpl; first [reflexivity | assumption].
  - destruct out as [resp|[] msg]; simpl; first [reflexivity | assumption].
  - assumption.
Qed.

(** C8: once the deletion latch is set, no sequence of token-manager
    operations ([Initialize], refresh through the refresh loop,
    [StartRefreshLoop], [GetTokenWithMinValidity], [ForceRefresh], reads)
    clears it. *)
Theorem deleted_latch_monotone (st : TokenManager * RefreshLoop) (ops : list TMOp) :
  IsDeploymentDeleted (fst st) = true ->
  IsDeploymentDeleted (fst (tm_run st ops)) = true.
Proof.
  unfold IsDeploymentDeleted, tm_run. revert st.
  induction ops as [|op ops IH]; intros st Hdel; simpl; [assumption|].
  apply IH. apply tm_step_keeps_deleted. assumption.
Qed.

Lemma deleted_latch_monotone_witness :
  IsDeploymentDeleted (fst (tm_run (NewTokenManager, LoopNotStarted)
                                   [TInitialize 0 (BootErr true "gone")])) = true /\
  IsDeploymentDeleted
    (fst (tm_run (tm_run (NewTokenManager, LoopNotStarted)
                         [TInitialize 0 (BootErr true "gone")])
                 [TStartRefreshLoop;
                  TForceRefresh 5 (BootOk (mkBootstrapResponse "tok" 3600 "c" "l"));
                  TGetTokenWithMinValidity 6 60 (BootOk (mkBootstrapResponse "t2" 3600 "c" "l"))]))
  = true.
Proof.
  assert (H : IsDeploymentDeleted (fst (tm_run (NewTokenManager, LoopNotStarted)
                                   [TInitialize 0 (BootErr true "gone")])) = true)
    by reflexivity.
  split; [exact H|].
  apply (deleted_latch_monotone _ _ H).
Defined.

(* ------------------------------------------------------------------ *)
(** ** Retries of a batch POST *)

Lemma not_ok_error (r : result unit) : r <> Ok tt -> exists e, r = Error e.
Proof. destruct r as [[]|e]; [congruence|eauto]. Qed.

Lemma retry_k_1 : forall k, (k < 5)%nat -> (k = 0 \/ k = 1 \/ k = 2 \/ k = 3 \/ k = 4)%nat.
Proof. intros; lia. Qed.

Ltac error_before send Hprev i :=
  let e := fresh "e" in
  destruct (not_ok_error (send i) (Hprev i ltac:(lia))) as [e ?].

(** C3 (as the code has it): [sendWithRetry] makes at most 5 POSTs; before
    POST [i >= 1] it sleeps [min(2^(i-1) s, 30 s)], i.e. 1, 2, 4 and 8 s;
    every error is retried; it returns nil at the first success, and after
    five failures the fifth error. *)
Theorem retry_schedule (send : nat -> result unit) :
  (forall k, (k < 5)%nat -> (forall i, (i < k)%nat -> send i <> Ok tt) ->
     send k = Ok tt -> sendWithRetry send = (Ok tt, retry_trace k)) /\
  ((forall i, (i < 5)%nat -> send i <> Ok tt) ->
     sendWithRetry send = (send 4%nat, retry_trace 4) /\
     sleeps (retry_trace 4) = [1 * Second; 2 * Second; 4 * Second; 8 * Second]).
Proof.
  split.
  - intros k Hk Hprev Hok.
    destruct (retry_k_1 k Hk) as [-> | [-> | [-> | [-> | ->]]]].
    + unfold sendWithRetry; simpl. rewrite Hok. reflexivity.
    + error_before send Hprev (0%nat).
      unfold sendWithRetry; simpl. rewrite H, Hok. reflexivity.
    + error_before send Hprev (0%nat). error_before send Hprev (1%nat).
      unfold sendWithRetry; simpl. rewrite H, H0, Hok. reflexivity.
    + error_before send Hprev (0%nat). error_before send Hprev (1%nat).
      error_before send Hprev (2%nat).
      unfold sendWithRetry; simpl. rewrite H, H0, H1, Hok. reflexivity.
    + error_before send Hprev (0%nat). error_before send Hprev (1%nat).
      error_before send Hprev (2%nat). error_before send Hprev (3%nat).
      unfold sendWithRetry; simpl. rewrite H, H0, H1, H2, Hok. reflexivity.
  - intros Hall.
    error_before send Hall (0%nat). error_before send Hall (1%nat). error_before send Hall (2%nat).
    error_before send Hall (3%nat). error_before send Hall (4%nat).
    split; [|reflexivity].
    unfold sendWithRetry; simpl. rewrite H, H0, H1, H2, H3. reflexivity.
Qed.

Lemma retry_schedule_witness :
  (forall i, (i < 5)%nat -> always_fail i <> Ok tt) /\
  sendWithRetry always_fail = (always_fail 4%nat, retry_trace 4).
Proof.
  assert (H : forall i, (i < 5)%nat -> always_fail i <> Ok tt)
    by (intros i _; discriminate).
  split; [exact H|].
  exact (proj1 (proj2 (retry_schedule always_fail) H)).
Defined.

(** C3 as stated fails: when every POST fails there are five POSTs but only
    four sleeps, 1, 2, 4 and 8 s; no 16 s sleep happens. *)
Lemma retry_no_sixteen_second_sleep :
  length (sends (snd (sendWithRetry always_fail))) = 5%nat /\
  sleeps (snd (sendWithRetry always_fail)) = [1 * Second; 2 * Second; 4 * Second; 8 * Second] /\
  sleeps (snd (sendWithRetry always_fail)) <>
    [1 * Second; 2 * Second; 4 * Second; 8 * Second; 16 * Second].
Proof.
  split; [reflexivity|]. split; [reflexivity|].
  vm_compute. discriminate.
Qed.

(* ------------------------------------------------------------------ *)
(** ** The circuit breaker *)

Lemma wrap32_small (x : Z) : 0 <= x < 2 ^ 31 -> wrap32 x = x.
Proof.
  intros H. unfold wrap32. rewrite Z.mod_small; lia.
Qed.

Lemma failures_count_up (ts : list Z) (b : Breaker) :
  0 <= failureCount b ->
  circuitOpen b = (circuitBreakerThreshold <=? failureCount b) ->
  failureCount b + Z.of_nat (length ts) <= circuitBreakerThreshold ->
  let b' := fold_left recordFailure ts b in
  failureCount b' = failureCount b + Z.of_nat (length ts) /\
  circuitOpen b' = (circuitBreakerThreshold <=? failureCount b').
Proof.
  revert b. induction ts as [|t ts IH]; intros b H0 Hopen Hlen; simpl.
  - split; [lia | exact Hopen].
  - simpl in Hlen.
    assert (Hc : failureCount (recordFailure b t) = failureCount b + 1).
    { unfold recordFailure; simpl. apply wrap32_small.
      unfold circuitBreakerThreshold in *. lia. }
    destruct (IH (recordFailure b t)) as [IH1 IH2].
    + lia.
    + rewrite Hc. unfold recordFailure. simpl. rewrite wrap32_small
        by (unfold circuitBreakerThreshold in *; lia).
      destruct (circuitBreakerThreshold <=? failureCount b + 1) eqn:E; [reflexivity|].
      rewrite Hopen. apply Z.leb_gt in E. apply Z.leb_gt. lia.
    + lia.
    + split; [lia | exact IH2].
Qed.

(** C2 (as the code has it): from a closed breaker with no failures, the
    circuit is open after [k <= 10] consecutive failures exactly when
    [k = 10]; a success closes it and clears the count; an open circuit stays
    open until more than 60 s have passed since the last failure, and the
    [isCircuitOpen] check after that closes it completely and clears the
    count, so that ten new failures are needed to reopen it; while
    [isCircuitOpen] answers true, [shipBatch] only re-buffers the batch,
    without any sleep or POST. *)
Theorem circuit_breaker_behaviour (Event : Type) (eventsToJSONL : list Event -> result string) :
  (forall (b : Breaker) (ts : list Z),
     failureCount b = 0 -> circuitOpen b = false ->
     (length ts <= 10)%nat ->
     circuitOpen (fold_left recordFailure ts b) = Nat.eqb (length ts) 10 /\
     failureCount (fold_left recordFailure ts b) = Z.of_nat (length ts)) /\
  (forall b, circuitOpen (recordSuccess b) = false /\ failureCount (recordSuccess b) = 0) /\
  (forall b now, circuitOpen b = true ->
     isCircuitOpen b now =
       if circuitBreakerTimeout <? now - lastFailure b
       then (false, mkBreaker 0 false (lastFailure b))
       else (true, b)) /\
  (forall (s : Shipper Event) now net events,
     fst (isCircuitOpen (sh_breaker s) now) = true ->
     shipBatch eventsToJSONL s now net events = (rebuffer s events, [])).
Proof.
  split; [|split; [|split]].
  - intros b ts H0 Hclosed Hlen.
    destruct (failures_count_up ts b) as [H1 H2].
    + lia.
    + rewrite H0, Hclosed. reflexivity.
    + rewrite H0. unfold circuitBreakerThreshold. lia.
    + rewrite H2, H1, H0. simpl. split; [|lia].
      unfold circuitBreakerThreshold.
      destruct (Nat.eqb (length ts) 10) eqn:E.
      * apply Nat.eqb_eq in E. rewrite E. reflexivity.
      * apply Nat.eqb_neq in E. apply Z.leb_gt. lia.
  - intros b. split; reflexivity.
  - intros b now Hopen. unfold isCircuitOpen. rewrite Hopen. reflexivity.
  - intros s now net events Hopen. unfold shipBatch.
    destruct (isCircuitOpen (sh_breaker s) now) as [o br] eqn:E.
    simpl in Hopen. subst o.
    assert (br = sh_breaker s).
    { unfold isCircuitOpen in E.
      destruct (circuitOpen (sh_breaker s)); simpl in E; [|discriminate].
      destruct (circuitBreakerTimeout <? _); congruence. }
    subst br. destruct s. reflexivity.
Qed.

(** C2 as stated fails: there is no half-open state.  An open breaker checked
    61 s after its last failure comes out in the state a success leaves
    (closed, count 0), and one more failure does not reopen it. *)
Lemma circuit_timeout_closes_fully :
  let b := mkBreaker 10 true 0 in
  let '(open, b') := isCircuitOpen b (61 * Second) in
  open = false /\ b' = recordSuccess b /\
  circuitOpen (recordFailure b' (62 * Second)) = false.
Proof. vm_compute. repeat split. Qed.

(* ------------------------------------------------------------------ *)
(** ** The readiness probe *)

(** C4 (as the code has it): [/ready] answers 503 or 200; it answers 200
    with body "Ready" exactly when an update has completed, the matcher's
    entry count is non-zero and the last update is at most 2 h old. *)
Theorem ready_iff {Addr Prefix : Type} (u : Updater Addr Prefix) (now : Z) :
  (fst (Ready u now) = StatusOK \/ fst (Ready u now) = StatusServiceUnavailable) /\
  (fst (Ready u now) = StatusOK -> snd (Ready u now) = "Ready") /\
  (fst (Ready u now) = StatusOK <->
   exists t, lastUpdate u = Some t /\ m_count (u_matcher u) <> 0 /\
             now - t <= 2 * Hour).
Proof.
  unfold Ready, GetStatus. destruct (lastUpdate u) as [t|]; simpl.
  - destruct (m_count (u_matcher u) =? 0) eqn:Ec; simpl.
    + apply Z.eqb_eq in Ec. unfold StatusOK, StatusServiceUnavailable.
      split; [right; reflexivity|]. split; [discriminate|].
      split; [discriminate|]. intros [t' [Ht [Hc _]]]. congruence.
    + apply Z.eqb_neq in Ec.
      destruct (now - t >? 2 * Hour) eqn:Et; simpl;
        unfold StatusOK, StatusServiceUnavailable.
      * apply Z.gtb_lt in Et.
        split; [right; reflexivity|]. split; [discriminate|].
        split; [discriminate|]. intros [t' [Ht [_ Hle]]]. injection Ht as ->. lia.
      * rewrite Z.gtb_ltb in Et. apply Z.ltb_ge in Et.
        split; [left; reflexivity|]. split; [reflexivity|].
        split; [intros _; exists t; auto | reflexivity].
  - unfold StatusOK, StatusServiceUnavailable.
    split; [right; reflexivity|]. split; [discriminate|].
    split; [discriminate|]. intros [t' [Ht _]]. discriminate.
Qed.

(** C4 as stated fails in two places: an EDL that loads with no entries
    leaves [/ready] at 503 right after the update, and a non-empty EDL loaded
    exactly 2 h ago still gets 200. *)
Lemma ready_empty_edl_and_two_hours :
  (match parseEDL4 "# header only
" with
   | Ok (s, count) =>
       Ready (fst (updateNow (NewUpdater (mkMatcher [] 0)) (Ok (s, count)) 0)) 0
   | Error _ => (0, "")
   end) = (StatusServiceUnavailable, "Not ready - EDL not yet loaded") /\
  (match parseEDL4 "10.0.0.0/8
" with
   | Ok (s, count) =>
       Ready (fst (updateNow (NewUpdater (mkMatcher [] 0)) (Ok (s, count)) 0)) (2 * Hour)
   | Error _ => (0, "")
   end) = (StatusOK, "Ready").
Proof. split; vm_compute; reflexivity. Qed.

(* ------------------------------------------------------------------ *)
(** ** The EDL parser *)

Section EDLFacts.

Variable Addr : Type.
Context `{EqDecision Addr}.
Variable Prefix : Type.
Variable ParsePrefix : string -> result Prefix.
Variable ParseAddr : string -> result Addr.
Variable TrimSpace : string -> string.
Variable PrefixContains : Prefix -> Addr -> bool.

Lemma parse_line_accepted (b : IPSet Addr Prefix) (count : Z) (raw : string) :
  parse_line ParsePrefix ParseAddr TrimSpace b count raw =
  match accepted_entry ParsePrefix ParseAddr TrimSpace raw with
  | Some e => (b ++ [e], count + 1)
  | None => (b, count)
  end.
Proof.
  unfold parse_line, accepted_entry.
  destruct (String.eqb _ _ || has_hash_prefix _); [reflexivity|].
  destruct (ParsePrefix _); [reflexivity|].
  destruct (ParseAddr _); reflexivity.
Qed.

Lemma parse_lines_fold (lines : list string) (b : IPSet Addr Prefix) (count : Z) :
  fold_left (fun acc raw => parse_line ParsePrefix ParseAddr TrimSpace (fst acc) (snd acc) raw)
            lines (b, count) =
  (b ++ accepted_entries ParsePrefix ParseAddr TrimSpace lines,
   count + Z.of_nat (length (accepted_entries ParsePrefix ParseAddr TrimSpace lines))).
Proof.
  revert b count. induction lines as [|raw lines IH]; intros b count; simpl.
  - rewrite app_nil_r. f_equal. lia.
  - rewrite parse_line_accepted.
    destruct (accepted_entry ParsePrefix ParseAddr TrimSpace raw) as [e|]; simpl;
      rewrite IH; simpl.
    + rewrite <- app_assoc. f_equal. lia.
    + reflexivity.
Qed.

Lemma overlong_line_existsb (segs : list string) :
  overlong_line segs = true ->
  existsb (fun seg => Nat.leb MaxScanTokenSize (String.length seg)) segs = true.
Proof.
  induction segs as [|seg rest IH]; [discriminate|].
  destruct rest as [|seg' rest'].
  - cbn [overlong_line existsb]. intros H. apply Nat.ltb_lt in H.
    rewrite orb_false_r. apply Nat.leb_le. lia.
  - change (overlong_line (seg :: seg' :: rest'))
      with (Nat.leb MaxScanTokenSize (String.length seg) || overlong_line (seg' :: rest')).
    intros H. apply existsb_exists. apply orb_true_iff in H as [H|H].
    + exists seg. split; [left; reflexivity | exact H].
    + apply IH, existsb_exists in H as [x [Hin Hx]].
      exists x. split; [right; exact Hin | exact Hx].
Qed.

(** C5 (as the code has it): when every line of the text fits the scanner's
    64 KiB buffer, [parseEDL] succeeds; the lines are the text cut at ['\n']
    (a trailing ['\r'] dropped); a line is accepted when its trimmed form is
    non-empty, does not start with '#', and parses as a prefix or else as an
    address; the set is built from exactly the accepted lines' prefixes (an
    address as its single-address range), and the count is the number of
    accepted lines; the other lines are skipped.  When instead some
    ['\n']-terminated line has 64 KiB or more, or the unterminated last line
    has more than 64 KiB, [parseEDL] fails with [bufio.ErrTooLong] and no set
    is built, whatever the other lines hold. *)
Theorem parseEDL_accepted_lines (text : string) :
  (forallb (fun seg => Nat.ltb (String.length seg) MaxScanTokenSize)
          (split_newlines text) = true ->
   let lines := scan_tokens (split_newlines text) in
   let entries := accepted_entries ParsePrefix ParseAddr TrimSpace lines in
   parseEDL ParsePrefix ParseAddr TrimSpace text =
     Ok (entries, Z.of_nat (length entries)) /\
   (forall x, IPSetContains PrefixContains entries x = true <->
      exists raw e, In raw lines /\
        accepted_entry ParsePrefix ParseAddr TrimSpace raw = Some e /\
        entry_contains PrefixContains e x = true)) /\
  (overlong_line (split_newlines text) = true ->
   parseEDL ParsePrefix ParseAddr TrimSpace text =
     Error "bufio.Scanner: token too long").
Proof.
  split.
  2:{ intros Hlong. unfold parseEDL, scanLines.
      rewrite (overlong_line_existsb _ Hlong). reflexivity. }
  intros Hfit lines entries. split.
  - unfold parseEDL, scanLines.
    assert (Hno : existsb (fun seg => Nat.leb MaxScanTokenSize (String.length seg))
                          (split_newlines text) = false).
    { apply not_true_is_false. intros Hex.
      apply existsb_exists in Hex as [seg [Hin Hle]].
      rewrite forallb_forall in Hfit. specialize (Hfit seg Hin).
      apply Nat.ltb_lt in Hfit. apply Nat.leb_le in Hle. lia. }
    rewrite Hno. rewrite parse_lines_fold. reflexivity.
  - intros x. unfold IPSetContains, entries, accepted_entries.
    rewrite existsb_exists. split.
    + intros [e [Hin Hc]]. apply in_flat_map in Hin as [raw [Hraw He]].
      destruct (accepted_entry ParsePrefix ParseAddr TrimSpace raw) as [e'|] eqn:Ea;
        [|contradiction].
      destruct He as [->|[]]. exists raw, e. auto.
    + intros [raw [e [Hin [Ha Hc]]]]. exists e. split; [|exact Hc].
      apply in_flat_map. exists raw. rewrite Ha. split; [exact Hin | left; reflexivity].
Qed.

End EDLFacts.

Lemma parseEDL_accepted_lines_witness :
  forallb (fun seg => Nat.ltb (String.length seg) MaxScanTokenSize)
          (split_newlines edl_sample) = true /\
  parseEDL4 edl_sample =
    Ok ([EPrefix (167772160, 8); EAddr 3405803783], 2) /\
  overlong_line (split_newlines edl_with_long_line) = true /\
  parseEDL4 edl_with_long_line = Error "bufio.Scanner: token too long".
Proof.
  assert (H : forallb (fun seg => Nat.ltb (String.length seg) MaxScanTokenSize)
                      (split_newlines edl_sample) = true) by (vm_compute; reflexivity).
  assert (Hl : overlong_line (split_newlines edl_with_long_line) = true)
    by (vm_compute; reflexivity).
  split; [exact H|].
  destruct (proj1 (parseEDL_accepted_lines Z (Z * Z) ParseIPv4Prefix ParseIPv4
              TrimSpaceASCII IPv4PrefixContains edl_sample) H) as [Hp _].
  split; [unfold parseEDL4; rewrite Hp; vm_compute; reflexivity|].
  split; [exact Hl|].
  exact (proj2 (parseEDL_accepted_lines Z (Z * Z) ParseIPv4Prefix ParseIPv4
           TrimSpaceASCII IPv4PrefixContains edl_with_long_line) Hl).
Defined.

(** C5 as stated fails: a line longer than the scanner's 64 KiB buffer is not
    an accepted line, yet instead of being skipped it makes [parseEDL] fail,
    and the valid line after it is lost with the whole list. *)
Lemma parseEDL_long_line_fails :
  accepted_entry ParseIPv4Prefix ParseIPv4 TrimSpaceASCII long_line = None /\
  parseEDL4 edl_with_long_line = Error "bufio.Scanner: token too long".
Proof. split; vm_compute; reflexivity. Qed.

(* ------------------------------------------------------------------ *)
(** ** The leaky bucket *)

Lemma wrap64_small (x : Z) : - 2 ^ 63 <= x < 2 ^ 63 -> wrap64 x = x.
Proof.
  intros H. unfold wrap64. rewrite Z.mod_small; lia.
Qed.

Lemma refill_fields (lb : LeakyBucket) (now : Z) :
  capacity (refill lb now) = capacity lb /\ refillRate (refill lb now) = refillRate lb.
Proof. unfold refill. destruct (0 <? tokensToAdd lb now); split; reflexivity. Qed.

Lemma refill_inv (lb : LeakyBucket) (now : Z) :
  bucket_inv lb -> tokensToAdd lb now <= max_int64 - capacity lb ->
  bucket_inv (refill lb now).
Proof.
  unfold bucket_inv, refill, max_int64. intros Hinv Hle.
  destruct (0 <? tokensToAdd lb now) eqn:E; simpl; [|exact Hinv].
  apply Z.ltb_lt in E.
  rewrite wrap64_small by lia.
  unfold MinInt64. destruct (capacity lb <? tokens lb + tokensToAdd lb now) eqn:E2.
  - lia.
  - apply Z.ltb_ge in E2. lia.
Qed.

Lemma bucket_call_inv (lb : LeakyBucket) (c : BucketCall) :
  bucket_inv lb -> call_ok lb c = true ->
  bucket_inv (bucket_call lb c) /\ capacity (bucket_call lb c) = capacity lb.
Proof.
  unfold call_ok. intros Hinv Hok. apply andb_true_iff in Hok as [Hn Hadd].
  apply Z.leb_le in Hn. apply Z.leb_le in Hadd.
  pose proof (refill_inv lb (call_time c) Hinv Hadd) as Hr.
  destruct (refill_fields lb (call_time c)) as [Hcap _].
  destruct c as [n now|n now|now]; simpl in *.
  - unfold Allow. destruct (n <=? tokens (refill lb now)) eqn:E; simpl.
    + apply Z.leb_le in E. unfold bucket_inv in *. simpl.
      rewrite Hcap in *.
      rewrite wrap64_small by (unfold max_int64 in *; lia). split; [split|]; lia.
    + split; assumption.
  - unfold WaitTime. destruct (n <=? tokens (refill lb now)); simpl; split; assumption.
  - split; assumption.
Qed.




(* ------------------------------------------------------------------ *)
(** ** The ring buffer is a bounded FIFO *)

Lemma mod_add_inj (c h i j : nat) :
  (0 < c)%nat -> (i < c)%nat -> (j < c)%nat ->
  Nat.modulo (h + i) c = Nat.modulo (h + j) c -> i = j.
Proof.
  intros Hc Hi Hj Heq.
  pose proof (Nat.div_mod_eq (h + i) c) as Di.
  pose proof (Nat.div_mod_eq (h + j) c) as Dj.
  rewrite Heq in Di.
  set (a := ((h + i) / c)%nat) in *. set (b := ((h + j) / c)%nat) in *.
  destruct (Nat.lt_trichotomy a b) as [Hab | [Hab | Hab]].
  - assert (c * (a + 1) <= c * b)%nat by (apply Nat.mul_le_mono_l; lia). lia.
  - subst b. lia.
  - assert (c * (b + 1) <= c * a)%nat by (apply Nat.mul_le_mono_l; lia). lia.
Qed.

Lemma mod_S_add (c h s : nat) :
  c <> 0%nat -> Nat.modulo (S (Nat.modulo (h + s) c)) c = Nat.modulo (h + S s) c.
Proof.
  intros Hc. rewrite <- Nat.add_1_r, Nat.Div0.add_mod_idemp_l.
  f_equal. lia.
Qed.

Lemma mod_S_head (c h i : nat) :
  c <> 0%nat -> Nat.modulo (Nat.modulo (S h) c + i) c = Nat.modulo (h + S i) c.
Proof.
  intros Hc. rewrite Nat.Div0.add_mod_idemp_l. f_equal. lia.
Qed.

Section RingBufferFacts.

Context {E : Type}.

Lemma rb_rel_new (cap : nat) : rb_rel (@NewRingBuffer E cap) [].
Proof.
  unfold rb_rel, NewRingBuffer; cbn [rb_buffer rb_capacity rb_head rb_tail rb_size].
  split; [apply length_replicate|].
  split; [reflexivity|].
  split; [simpl; lia|].
  split.
  - intros Hc. split; [exact Hc|]. rewrite Nat.add_0_r, Nat.Div0.mod_0_l. reflexivity.
  - intros i x Hi. rewrite lookup_nil in Hi. discriminate.
Qed.

Lemma Add_rel (rb : RingBuffer E) (q : list E) (e : E) :
  rb_rel rb q -> (length q < rb_capacity rb)%nat ->
  exists rb', Add rb e = (true, rb') /\ rb_rel rb' (q ++ [e]) /\
              rb_capacity rb' = rb_capacity rb.
Proof.
  intros (Hlen & Hsz & Hle & Hht & Hlk) Hlt.
  destruct (Hht ltac:(lia)) as [Hh Ht].
  unfold Add. rewrite (proj2 (Nat.leb_gt _ _)) by lia.
  eexists; split; [reflexivity|]. split; [|reflexivity].
  unfold rb_rel; cbn [rb_buffer rb_capacity rb_head rb_tail rb_size].
  split; [rewrite length_insert; exact Hlen|].
  split; [rewrite length_app; simpl; lia|].
  split; [rewrite length_app; simpl; lia|].
  split.
  - intros _. split; [exact Hh|]. rewrite Ht. apply mod_S_add. lia.
  - intros i x Hi. apply lookup_app_Some in Hi as [Hi | [Hge Hi]].
    + pose proof (lookup_lt_Some _ _ _ Hi) as Hiq.
      rewrite list_lookup_insert_ne; [apply Hlk; exact Hi|].
      intros Heq. rewrite Ht in Heq.
      apply mod_add_inj in Heq; lia.
    + apply list_lookup_singleton_Some in Hi as [Hi0 <-].
      assert (i = rb_size rb) as -> by lia.
      rewrite <- Ht. apply list_lookup_insert_eq.
      rewrite Hlen, Ht. apply Nat.mod_upper_bound. lia.
Qed.

Lemma pop_rel (rb : RingBuffer E) (x : E) (q : list E) :
  rb_rel rb (x :: q) ->
  exists rb', pop_head rb = (Some x, rb') /\ rb_rel rb' q /\
              rb_capacity rb' = rb_capacity rb.
Proof.
  intros (Hlen & Hsz & Hle & Hht & Hlk). simpl in Hsz, Hle.
  destruct (Hht ltac:(lia)) as [Hh Ht].
  assert (Hx : rb_buffer rb !! rb_head rb = Some (Some x)).
  { pose proof (Hlk 0%nat x eq_refl) as H0.
    rewrite Nat.add_0_r, Nat.mod_small in H0 by exact Hh. exact H0. }
  unfold pop_head. rewrite Hx.
  eexists; split; [reflexivity|]. split; [|reflexivity].
  unfold rb_rel; cbn [rb_buffer rb_capacity rb_head rb_tail rb_size].
  split; [rewrite length_insert; exact Hlen|].
  split; [rewrite Hsz; reflexivity|].
  split; [lia|].
  split.
  - intros _. split; [apply Nat.mod_upper_bound; lia|].
    rewrite Ht, Hsz. simpl Nat.pred. rewrite mod_S_head by lia. reflexivity.
  - intros i y Hi. pose proof (lookup_lt_Some _ _ _ Hi) as Hiq.
    rewrite mod_S_head by lia.
    rewrite list_lookup_insert_ne; [apply (Hlk (S i)); exact Hi|].
    intros Heq.
    assert (Heq0 : Nat.modulo (rb_head rb + 0) (rb_capacity rb)
                   = Nat.modulo (rb_head rb + S i) (rb_capacity rb)).
    { rewrite Nat.add_0_r, Nat.mod_small by exact Hh. exact Heq. }
    apply mod_add_inj in Heq0; lia.
Qed.

Lemma drain_loop_rel (k : nat) :
  forall (rb : RingBuffer E) (q : list E) (acc : list (option E)),
  rb_rel rb q -> (k <= length q)%nat ->
  exists rb', drain_loop k rb acc = (acc ++ map Some (take k q), rb') /\
              rb_rel rb' (drop k q) /\ rb_capacity rb' = rb_capacity rb.
Proof.
  induction k as [|k IH]; intros rb q acc Hrel Hk.
  - exists rb. rewrite take_0, drop_0, app_nil_r. auto.
  - destruct q as [|x q]; [simpl in Hk; lia|].
    destruct (pop_rel rb x q Hrel) as (rb1 & Hpop & Hrel1 & Hcap1).
    cbn [drain_loop]. rewrite Hpop.
    destruct (IH rb1 q (acc ++ [Some x]) Hrel1 ltac:(simpl in Hk; lia))
      as (rb2 & Hd & Hrel2 & Hcap2).
    exists rb2. rewrite Hd, <- app_assoc. simpl.
    split; [reflexivity|]. split; [exact Hrel2|]. congruence.
Qed.

Lemma Drain_rel (rb : RingBuffer E) (q : list E) (m : Z) :
  rb_rel rb q ->
  if (m <? 0) && negb (Nat.eqb (length q) 0) then Drain rb m = None
  else exists rb', Drain rb m = Some (map Some (take (Z.to_nat m) q), rb') /\
                   rb_rel rb' (drop (Z.to_nat m) q) /\
                   rb_capacity rb' = rb_capacity rb.
Proof.
  intros Hrel. pose proof Hrel as (_ & Hsz & _).
  unfold Drain; cbv zeta. rewrite Hsz.
  destruct (Nat.eqb_spec (length q) 0) as [H0 | H0].
  - apply length_zero_iff_nil in H0. subst q. rewrite andb_false_r.
    exists rb. rewrite take_nil, drop_nil. auto.
  - rewrite andb_true_r. destruct (Z.ltb_spec m 0) as [Hm | Hm].
    + rewrite (proj2 (Z.ltb_lt m (Z.of_nat (length q)))) by lia.
      rewrite (proj2 (Z.ltb_lt m 0)) by lia. reflexivity.
    + destruct (Z.ltb_spec m (Z.of_nat (length q))) as [Hl | Hl].
      * rewrite (proj2 (Z.ltb_ge m 0)) by lia.
        destruct (drain_loop_rel (Z.to_nat m) rb q [] Hrel ltac:(lia))
          as (rb1 & Hd & Hrel1 & Hcap1).
        exists rb1. rewrite Hd. auto.
      * rewrite (proj2 (Z.ltb_ge (Z.of_nat (length q)) 0)) by lia.
        rewrite Nat2Z.id.
        destruct (drain_loop_rel (length q) rb q [] Hrel ltac:(lia))
          as (rb1 & Hd & Hrel1 & Hcap1).
        exists rb1. rewrite Hd.
        rewrite (take_ge q (length q)), (take_ge q (Z.to_nat m)) by lia.
        rewrite (drop_ge q (length q)) in Hrel1 by lia.
        rewrite (drop_ge q (Z.to_nat m)) by lia. auto.
Qed.

Lemma DrainAll_rel (rb : RingBuffer E) (q : list E) :
  rb_rel rb q ->
  exists rb', DrainAll rb = (map Some q, rb') /\ rb_rel rb' [] /\
              rb_capacity rb' = rb_capacity rb.
Proof.
  intros Hrel. pose proof Hrel as (_ & Hsz & _).
  unfold DrainAll. rewrite Hsz.
  destruct (Nat.eqb_spec (length q) 0) as [H0 | H0].
  - apply length_zero_iff_nil in H0. subst q. exists rb. auto.
  - destruct (drain_loop_rel (length q) rb q [] Hrel ltac:(lia))
      as (rb1 & Hd & Hrel1 & Hcap1).
    exists rb1. rewrite Hd, take_ge by lia. rewrite drop_ge in Hrel1 by lia. auto.
Qed.

Lemma rb_step_rel (rb : RingBuffer E) (q : list E) (op : RBOp E) :
  rb_rel rb q ->
  let '(o, rb') := rb_step rb op in
  let '(o', q') := queue_step (rb_capacity rb) q op in
  o = o' /\ rb_rel rb' q' /\ rb_capacity rb' = rb_capacity rb.
Proof.
  intros Hrel. pose proof Hrel as (_ & Hsz & _).
  destruct op as [e | | m | | ]; unfold rb_step, queue_step.
  - destruct (Nat.leb (rb_capacity rb) (length q)) eqn:Hf.
    + unfold Add. rewrite Hsz, Hf. simpl; auto.
    + apply Nat.leb_gt in Hf.
      destruct (Add_rel rb q e Hrel Hf) as (rb1 & Ha & Hrel1 & Hcap1).
      rewrite Ha. simpl; auto.
  - destruct q as [|x q].
    + unfold Get. rewrite Hsz. simpl; auto.
    + destruct (pop_rel rb x q Hrel) as (rb1 & Hpop & Hrel1 & Hcap1).
      unfold Get. rewrite Hsz, Hpop. simpl; auto.
  - pose proof (Drain_rel rb q m Hrel) as HD.
    destruct ((m <? 0) && negb (Nat.eqb (length q) 0)).
    + rewrite HD. simpl; auto.
    + destruct HD as (rb1 & HD & Hrel1 & Hcap1). rewrite HD. simpl; auto.
  - destruct (DrainAll_rel rb q Hrel) as (rb1 & HD & Hrel1 & Hcap1).
    rewrite HD. simpl; auto.
  - unfold Size. rewrite Hsz. simpl; auto.
Qed.

Lemma queue_step_count (cap : nat) (q : list E) (op : RBOp E) :
  let '(o, q') := queue_step cap q op in
  (length q' + removed o = length q + added o)%nat.
Proof.
  destruct op as [e | | m | | ]; unfold queue_step.
  - destruct (Nat.leb cap (length q)); simpl; [lia|].
    rewrite length_app; simpl; lia.
  - destruct q; simpl; lia.
  - destruct ((m <? 0) && negb (Nat.eqb (length q) 0)); simpl; [lia|].
    rewrite length_drop, length_map, length_take. lia.
  - simpl. rewrite length_map. lia.
  - simpl. lia.
Qed.

Lemma rb_run_rel (ops : list (RBOp E)) :
  forall (rb : RingBuffer E) (q : list E), rb_rel rb q ->
  let '(outs, rb') := rb_run rb ops in
  outs = queue_run (rb_capacity rb) q ops /\
  rb_capacity rb' = rb_capacity rb /\
  exists q', rb_rel rb' q' /\
    (length q' + total (map removed outs) = length q + total (map added outs))%nat.
Proof.
  induction ops as [|op ops IH]; intros rb q Hrel.
  - simpl. split; [reflexivity|]. split; [reflexivity|].
    exists q. split; [exact Hrel | lia].
  - simpl. pose proof (rb_step_rel rb q op Hrel) as Hs.
    pose proof (queue_step_count (rb_capacity rb) q op) as Hc.
    destruct (rb_step rb op) as [o rb1].
    destruct (queue_step (rb_capacity rb) q op) as [o' q1].
    destruct Hs as (<- & Hrel1 & Hcap1).
    destruct (is_panic o).
    + split; [reflexivity|]. split; [exact Hcap1|].
      exists q1. split; [exact Hrel1|]. simpl. lia.
    + pose proof (IH rb1 q1 Hrel1) as IH1.
      destruct (rb_run rb1 ops) as [os rb2].
      destruct IH1 as (Hout & Hcap2 & q2 & Hrel2 & Hcnt).
      split; [rewrite Hout, Hcap1; reflexivity|].
      split; [congruence|].
      exists q2. split; [exact Hrel2|]. simpl. lia.
Qed.

End RingBufferFacts.

(** C7: from a fresh buffer of any capacity, every sequence of operations
    returns what a FIFO queue of that capacity returns ([queue_run]: [Add] on
    a full queue answers false and changes nothing, [Drain m] returns the
    first [m] elements in insertion order); the final [Size] equals the
    successful [Add]s minus the items [Get], [Drain] and [DrainAll] returned,
    and is at most the capacity.  Any state whose size equals its capacity
    refuses [Add] and is left unchanged. *)
Theorem ring_buffer_fifo {E : Type} (cap : nat) (ops : list (RBOp E)) :
  (forall (rb : RingBuffer E) (e : E),
     Size rb = rb_capacity rb -> Add rb e = (false, rb)) /\
  let '(outs, rb) := rb_run (NewRingBuffer cap) ops in
  outs = queue_run cap [] ops /\
  (Size rb + total (map removed outs) = total (map added outs))%nat /\
  (Size rb <= cap)%nat.
Proof.
  split.
  - intros rb e Hfull. unfold Size in Hfull. unfold Add.
    rewrite Hfull, Nat.leb_refl. reflexivity.
  - pose proof (rb_run_rel ops (NewRingBuffer cap) [] (rb_rel_new cap)) as H.
    destruct (rb_run (NewRingBuffer cap) ops) as [outs rb].
    destruct H as (Hout & Hcap & q' & Hrel & Hcnt).
    change (rb_capacity (@NewRingBuffer E cap)) with cap in Hout, Hcap.
    destruct Hrel as (_ & Hsz & Hle & _).
    unfold Size. simpl length in Hcnt.
    split; [exact Hout|]. split; lia.
Qed.

(* ------------------------------------------------------------------ *)
(** ** The log shipper: where every event goes *)

Section ShipperFacts.

Context {Event : Type} (eventsToJSONL : list Event -> result string).

Lemma Add_Size (rb : RingBuffer Event) (e : Event) :
  Size (snd (Add rb e)) = if fst (Add rb e) then S (Size rb) else Size rb.
Proof. unfold Add, Size. destruct (Nat.leb _ _); reflexivity. Qed.

Lemma rebuffer_fields (s : Shipper Event) (events : list Event) :
  sh_bucket (rebuffer s events) = sh_bucket s /\
  sh_breaker (rebuffer s events) = sh_breaker s /\
  accounted (rebuffer s events) = accounted s + Z.of_nat (length events).
Proof.
  unfold rebuffer. revert s. induction events as [|e es IH]; intros s; simpl.
  - repeat split; lia.
  - pose proof (Add_Size (sh_buffer s) e) as HS.
    destruct (Add (sh_buffer s) e) as [ok buf]. simpl in HS.
    destruct (IH (mkShipper (sh_bucket s) buf (sh_breaker s) (EventsShipped s)
                  (if ok then EventsDropped s else EventsDropped s + 1)
                  (ShippingErrors s) (BatchesSent s))) as (H1 & H2 & H3).
    rewrite H1, H2, H3. split; [reflexivity|]. split; [reflexivity|].
    unfold accounted in *; simpl. rewrite HS. destruct ok; lia.
Qed.

Lemma shipBatch_accounted (s : Shipper Event) (now : Z) (net : Network)
  (events : list Event) :
  accounted (fst (shipBatch eventsToJSONL s now net events)) =
  accounted s + Z.of_nat (length events).
Proof.
  unfold shipBatch.
  destruct (isCircuitOpen (sh_breaker s) now) as [open br].
  destruct open.
  - simpl. rewrite (proj2 (proj2 (rebuffer_fields _ _))). reflexivity.
  - destruct (WaitTime _ 1 now) as [w lb].
    destruct (Allow lb 1 _) as [ok lb'].
    destruct ok; simpl.
    + destruct (eventsToJSONL events); simpl.
      * destruct (sendWithRetry _) as [r tr]. destruct r; simpl.
        -- unfold accounted; simpl. lia.
        -- rewrite (proj2 (proj2 (rebuffer_fields _ _))). unfold accounted; simpl. lia.
      * unfold accounted; simpl. lia.
    + rewrite (proj2 (proj2 (rebuffer_fields _ _))). reflexivity.
Qed.

Lemma isCircuitOpen_inv (b : Breaker) (now : Z) :
  breaker_inv b ->
  breaker_inv (snd (isCircuitOpen b now)) /\
  (fst (isCircuitOpen b now) = false -> circuitOpen (snd (isCircuitOpen b now)) = false).
Proof.
  unfold isCircuitOpen. intros Hb.
  destruct (circuitOpen b) eqn:Ho; simpl; [|split; [exact Hb|auto]].
  destruct (circuitBreakerTimeout <? now - lastFailure b); simpl.
  - split; [|auto]. unfold breaker_inv, circuitBreakerThreshold; simpl.
    split; [lia|]. split; discriminate.
  - split; [exact Hb|discriminate].
Qed.

End ShipperFacts.

(** X1: whatever [shipBatch] meets (an open circuit, an empty bucket, an
    encoding error, a failed or a successful POST), every event of the batch
    is counted exactly once: shipped, dropped, or back in the ring buffer. *)
Theorem shipBatch_conserves_events {Event : Type}
  (eventsToJSONL : list Event -> result string) (s : Shipper Event) (now : Z)
  (net : Network) (events : list Event) :
  accounted (fst (shipBatch eventsToJSONL s now net events)) =
  accounted s + Z.of_nat (length events).
Proof. apply shipBatch_accounted. Qed.


(** X3: from a fresh breaker on, every [shipBatch] keeps the failure count
    in [0, 10] and the circuit open exactly when the count is 10; so the
    [int32] counter never wraps and a failure is never recorded on an open
    circuit. *)
Theorem shipBatch_breaker_invariant {Event : Type}
  (eventsToJSONL : list Event -> result string) :
  (forall zero, breaker_inv (NewBreaker zero)) /\
  (forall (s : Shipper Event) now net events,
     breaker_inv (sh_breaker s) ->
     breaker_inv (sh_breaker (fst (shipBatch eventsToJSONL s now net events)))).
Proof.
  split.
  - intros zero. unfold breaker_inv, NewBreaker, circuitBreakerThreshold; simpl.
    split; [lia|]. split; discriminate.
  - intros s now net events Hb. unfold shipBatch.
    destruct (isCircuitOpen_inv (sh_breaker s) now Hb) as [Hb1 Hclosed].
    destruct (isCircuitOpen (sh_breaker s) now) as [open br]. simpl in Hb1, Hclosed.
    destruct open.
    + simpl. rewrite (proj1 (proj2 (rebuffer_fields _ _))). exact Hb1.
    + specialize (Hclosed eq_refl).
      destruct (WaitTime _ 1 now) as [w lb].
      destruct (Allow lb 1 _) as [ok lb'].
      destruct ok; simpl.
      * destruct (eventsToJSONL events); simpl; [|exact Hb1].
        destruct (sendWithRetry _) as [r tr]. destruct r; simpl.
        -- unfold breaker_inv, circuitBreakerThreshold; simpl.
           split; [lia|]. split; discriminate.
        -- rewrite (proj1 (proj2 (rebuffer_fields _ _))). simpl.
           destruct Hb1 as [Hrange Hiff].
           assert (Hc : failureCount br < circuitBreakerThreshold).
           { destruct (Z.eq_dec (failureCount br) circuitBreakerThreshold) as [Heq|Hne].
             - apply Hiff in Heq. congruence.
             - lia. }
           unfold breaker_inv, recordFailure, circuitBreakerThreshold in *; simpl.
           rewrite wrap32_small by lia.
           split; [lia|].
           destruct (10 <=? failureCount br + 1) eqn:E.
           ++ apply Z.leb_le in E. split; [intros; lia | reflexivity].
           ++ apply Z.leb_gt in E. rewrite Hclosed. split; [discriminate | lia].
      * rewrite (proj1 (proj2 (rebuffer_fields _ _))). exact Hb1.
Qed.

Section BatchingFacts.

Context {Event : Type}.

Lemma shipped_batches_app (a b : list (PECall Event)) :
  shipped_batches (a ++ b) = shipped_batches a ++ shipped_batches b.
Proof. unfold shipped_batches. apply flat_map_app. Qed.

Lemma ship_pending_batches (batch : list Event) :
  concat (shipped_batches (ship_pending batch)) = batch /\
  (Z.of_nat (length batch) <= 0 -> shipped_batches (ship_pending batch) = []) /\
  shipped_batches (ship_pending batch) = match batch with [] => [] | _ => [batch] end.
Proof.
  destruct batch as [|x xs]; simpl; [auto|].
  rewrite app_nil_r. split; [reflexivity|]. split; [lia|reflexivity].
Qed.

Lemma processEvents_loop_stop (bs : Z) (t : PEInput Event) (post : list (PEInput Event)) :
  forall (pre : list (PEInput Event)) (batch : list Event),
  0 < bs -> forallb (fun i => negb (is_stop i)) pre = true -> is_stop t = true ->
  Z.of_nat (length batch) < bs ->
  let '(calls, ret) := processEvents_loop bs batch (pre ++ t :: post) in
  ret = true /\ concat (shipped_batches calls) = batch ++ received pre /\
  Forall (batch_ok bs) (shipped_batches calls).
Proof.
  induction pre as [|i pre IH]; intros batch Hbs Hpre Ht Hlen; simpl.
  - destruct t; try discriminate; simpl;
      (split; [reflexivity|]; rewrite app_nil_r;
       split; [apply ship_pending_batches|];
       rewrite (proj2 (proj2 (ship_pending_batches batch)));
       destruct batch; [constructor|];
       constructor; [split; [discriminate|lia]|constructor]).
  - simpl in Hpre. apply andb_true_iff in Hpre as [Hi Hpre].
    destruct i as [e| | |]; try discriminate; simpl.
    + destruct (bs <=? Z.of_nat (length (batch ++ [e]))) eqn:E.
      * specialize (IH [] Hbs Hpre Ht ltac:(simpl; lia)).
        destruct (processEvents_loop bs [] (pre ++ t :: post)) as [calls ret].
        destruct IH as (Hr & Hc & Hf).
        split; [exact Hr|]. simpl. rewrite Hc, <- app_assoc. split; [reflexivity|].
        constructor; [|exact Hf].
        split; [destruct batch; discriminate|].
        rewrite length_app in *. simpl in *. lia.
      * apply Z.leb_gt in E.
        specialize (IH (batch ++ [e]) Hbs Hpre Ht E).
        destruct (processEvents_loop bs (batch ++ [e]) (pre ++ t :: post)) as [calls ret].
        destruct IH as (Hr & Hc & Hf).
        split; [exact Hr|]. rewrite Hc, <- app_assoc. split; [reflexivity|exact Hf].
    + specialize (IH [] Hbs Hpre Ht ltac:(simpl; lia)).
      destruct (processEvents_loop bs [] (pre ++ t :: post)) as [calls ret].
      destruct IH as (Hr & Hc & Hf).
      split; [exact Hr|].
      rewrite shipped_batches_app. simpl.
      rewrite concat_app, Hc. simpl.
      split; [rewrite (proj1 (ship_pending_batches batch)); reflexivity|].
      apply Forall_app. split; [|exact Hf].
      rewrite (proj2 (proj2 (ship_pending_batches batch))).
      destruct batch; [constructor|].
      constructor; [split; [discriminate|lia]|constructor].
Qed.

End BatchingFacts.

(** X4: with a positive [flushInterval] (so that [time.NewTicker] does not
    panic) and a positive [batchSize], once [processEvents] takes the
    [ctx.Done()] case or sees the channel closed, it has returned, and the
    batches it handed to [shipBatch] are, concatenated in order, exactly the
    events it received; each is non-empty and holds at most [batchSize]
    events.  Nothing queued in the channel after that point is read. *)
Theorem processEvents_ships_received {Event : Type} (ls : LogShipper Event)
  (pre post : list (PEInput Event)) (t : PEInput Event) :
  0 < flushInterval ls -> 0 < batchSize ls ->
  forallb (fun i => negb (is_stop i)) pre = true -> is_stop t = true ->
  exists calls,
    processEvents ls (pre ++ t :: post) = Some (calls, true) /\
    concat (shipped_batches calls) = received pre /\
    Forall (batch_ok (batchSize ls)) (shipped_batches calls).
Proof.
  intros Hfi Hbs Hpre Ht. unfold processEvents.
  rewrite (proj2 (Z.leb_gt _ _)) by lia.
  rewrite (proj2 (Z.ltb_ge _ _)) by lia.
  pose proof (processEvents_loop_stop (batchSize ls) t post pre [] Hbs Hpre Ht
                ltac:(simpl; lia)) as H.
  destruct (processEvents_loop (batchSize ls) [] (pre ++ t :: post)) as [calls ret].
  destruct H as (Hr & Hc & Hf). subst ret.
  exists calls. auto.
Qed.

Lemma processEvents_ships_received_witness :
  (0 < flushInterval (NewLogShipper (Event:=nat) (mkLogShipperConfig 2 0 0 0 0) 0) /\
   0 < batchSize (NewLogShipper (Event:=nat) (mkLogShipperConfig 2 0 0 0 0) 0) /\
   forallb (fun i => negb (is_stop i)) [PERecv 1%nat; PERecv 2%nat; PETick; PERecv 3%nat] = true /\
   is_stop (@PEClosed nat) = true) /\
  exists calls,
    processEvents (NewLogShipper (mkLogShipperConfig 2 0 0 0 0) 0)
      ([PERecv 1%nat; PERecv 2%nat; PETick; PERecv 3%nat] ++ PEClosed :: [PERecv 4%nat])
      = Some (calls, true) /\
    concat (shipped_batches calls) = received [PERecv 1%nat; PERecv 2%nat; PETick; PERecv 3%nat] /\
    Forall (batch_ok (batchSize (NewLogShipper (Event:=nat) (mkLogShipperConfig 2 0 0 0 0) 0)))
           (shipped_batches calls).
Proof.
  split; [split; [vm_compute; reflexivity | split; [vm_compute; reflexivity | split; reflexivity]]|].
  apply processEvents_ships_received;
    [vm_compute; reflexivity | vm_compute; reflexivity | reflexivity | reflexivity].
Defined.

Section FlushFacts.

Context {Event : Type} (eventsToJSONL : list Event -> result string) (nilEvent : Event).

Lemma flush_loop_done (fuel : nat) :
  forall (bs : Z) (s : Shipper Event) (events : list Event)
         (env : nat -> Z * Network) (k : nat),
  0 < bs -> (length events <= fuel)%nat ->
  exists s' batches,
    flush_loop eventsToJSONL fuel bs s events env k = FlushDone s' batches /\
    concat batches = events /\ Forall (batch_ok bs) batches /\
    accounted s' = accounted s + Z.of_nat (length events).
Proof.
  induction fuel as [|fuel IH]; intros bs s events env k Hbs Hlen.
  - destruct events; [|simpl in Hlen; lia].
    exists s, []. simpl. repeat split; [constructor | lia].
  - destruct events as [|x xs].
    + exists s, []. simpl. repeat split; [constructor | lia].
    + cbn [flush_loop].
      set (n := MinInt (Z.of_nat (length (x :: xs))) bs).
      assert (Hn : 1 <= n <= Z.of_nat (length (x :: xs)) /\ n <= bs).
      { unfold n, MinInt. simpl length.
        destruct (Z.of_nat (S (length xs)) <? bs) eqn:E;
          [apply Z.ltb_lt in E | apply Z.ltb_ge in E]; lia. }
      rewrite (proj2 (Z.ltb_ge n 0)) by lia.
      pose proof (shipBatch_accounted eventsToJSONL s (fst (env k)) (snd (env k))
                    (take (Z.to_nat n) (x :: xs))) as Hacc.
      destruct (shipBatch eventsToJSONL s (fst (env k)) (snd (env k))
                  (take (Z.to_nat n) (x :: xs))) as [s1 tr]. simpl in Hacc.
      destruct (IH bs s1 (drop (Z.to_nat n) (x :: xs)) env (S k) Hbs)
        as (s' & batches & Hl & Hc & Hf & Ha).
      { rewrite length_drop. simpl length in *. lia. }
      rewrite Hl. exists s', (take (Z.to_nat n) (x :: xs) :: batches).
      split; [reflexivity|]. split; [simpl; rewrite Hc; apply take_drop|].
      split.
      * constructor; [|exact Hf]. split.
        -- destruct (Z.to_nat n) eqn:En; [lia|discriminate].
        -- rewrite length_take. simpl length in *. lia.
      * rewrite Ha, Hacc, length_drop, length_take. simpl length in *. lia.
Qed.

End FlushFacts.

(** X5: with a positive [batchSize] and the ring buffer holding the queue
    [q], [flushBuffer] returns after at most [length q] rounds; the batches
    it ships are non-empty, hold at most [batchSize] events, and
    concatenate to [q] in order; and no event is lost: shipped, dropped and
    buffered events add up as before. *)
Theorem flushBuffer_ships_buffer_in_order {Event : Type}
  (eventsToJSONL : list Event -> result string) (nilEvent : Event)
  (ls : LogShipper Event) (q : list Event) (fuel : nat) (env : nat -> Z * Network) :
  0 < batchSize ls -> rb_rel (sh_buffer (ls_state ls)) q -> (length q <= fuel)%nat ->
  exists s' batches,
    flushBuffer eventsToJSONL nilEvent fuel ls env = FlushDone s' batches /\
    concat batches = q /\ Forall (batch_ok (batchSize ls)) batches /\
    accounted s' = accounted (ls_state ls).
Proof.
  intros Hbs Hrel Hfuel. unfold flushBuffer.
  pose proof Hrel as (_ & Hsz & _).
  destruct (DrainAll_rel _ q Hrel) as (rb' & Hd & Hrel' & _).
  rewrite Hd. rewrite map_map. simpl. rewrite map_id.
  destruct (flush_loop_done eventsToJSONL fuel (batchSize ls) (with_buffer (ls_state ls) rb')
              q env 0 Hbs Hfuel) as (s' & batches & Hl & Hc & Hf & Ha).
  exists s', batches. split; [exact Hl|]. split; [exact Hc|]. split; [exact Hf|].
  rewrite Ha. destruct Hrel' as (_ & Hsz' & _).
  unfold accounted, with_buffer, Size in *; simpl. rewrite Hsz', Hsz. simpl. lia.
Qed.

(** X6: with a positive [batchSize] and the ring buffer holding the queue
    [q], [processBufferedEvents] hands [shipBatch] the oldest
    [min(batchSize, length q)] events in order, does not call it at all on
    an empty buffer, and loses no event. *)
Theorem processBufferedEvents_oldest_first {Event : Type}
  (eventsToJSONL : list Event -> result string) (nilEvent : Event)
  (ls : LogShipper Event) (q : list Event) (now : Z) (net : Network) :
  0 < batchSize ls -> rb_rel (sh_buffer (ls_state ls)) q ->
  exists s' tr,
    processBufferedEvents eventsToJSONL nilEvent ls now net =
      Some (s', tr, take (Z.to_nat (batchSize ls)) q) /\
    accounted s' = accounted (ls_state ls) /\
    (q = [] -> s' = ls_state ls /\ tr = []).
Proof.
  intros Hbs Hrel. unfold processBufferedEvents.
  pose proof Hrel as (_ & Hsz & _).
  pose proof (Drain_rel _ q (batchSize ls) Hrel) as HD.
  rewrite (proj2 (Z.ltb_ge (batchSize ls) 0)) in HD by lia. simpl in HD.
  destruct HD as (rb' & Hd & Hrel' & _). rewrite Hd.
  rewrite map_map. simpl. rewrite map_id.
  destruct Hrel' as (_ & Hsz' & _).
  assert (Hacc0 : accounted (with_buffer (ls_state ls) rb') +
                  Z.of_nat (length (take (Z.to_nat (batchSize ls)) q)) =
                  accounted (ls_state ls)).
  { unfold accounted, with_buffer, Size in *; simpl. rewrite Hsz', Hsz.
    rewrite length_drop, length_take. lia. }
  destruct (take (Z.to_nat (batchSize ls)) q) as [|y ys] eqn:Ht.
  - exists (with_buffer (ls_state ls) rb'), []. split; [reflexivity|].
    split; [simpl in Hacc0; lia|].
    intros ->. split; [|reflexivity].
    simpl in Hd. unfold Drain in Hd. rewrite Hsz in Hd. simpl in Hd.
    injection Hd as <-. destruct (ls_state ls); reflexivity.
  - pose proof (shipBatch_accounted eventsToJSONL (with_buffer (ls_state ls) rb') now net
                  (y :: ys)) as Hacc.
    destruct (shipBatch eventsToJSONL (with_buffer (ls_state ls) rb') now net (y :: ys))
      as [s' tr]. simpl in Hacc, Hacc0.
    exists s', tr. split; [reflexivity|]. split; [lia|].
    intros ->. rewrite take_nil in Ht. discriminate.
Qed.


(* ------------------------------------------------------------------ *)
(** ** Fetching the EDL *)

(** X9: with [MaxRetryAttempts <= 0], [FetchWithRetry] makes no request and
    reports success with a nil set and a count of 0. *)
Theorem FetchWithRetry_no_attempts {IPSetT : Type} (MaxRetryAttempts RetryDelay : Z)
  (ctxErr : string) (cancelled : nat -> bool) (fetch : nat -> result (IPSetT * Z)) :
  MaxRetryAttempts <= 0 ->
  FetchWithRetry MaxRetryAttempts RetryDelay ctxErr cancelled fetch = (Ok (None, 0), []).
Proof.
  intros H. unfold FetchWithRetry. destruct MaxRetryAttempts; [reflexivity | lia | reflexivity].
Qed.

Lemma fetch_trace_cons (RetryDelay : Z) (a n : nat) :
  flat_map (fetch_step RetryDelay) (seq a (S n)) =
  (if Nat.ltb 0 a then [FWait (wrap64 (RetryDelay * Z.of_nat a))] else []) ++
  FFetch a :: flat_map (fetch_step RetryDelay) (seq (S a) n).
Proof. simpl. unfold fetch_step at 1. rewrite <- app_assoc. reflexivity. Qed.

Lemma fetch_loop_schedule {IPSetT : Type} (RetryDelay : Z) (ctxErr : string)
  (fetch : nat -> result (IPSetT * Z)) (errs : nat -> string) :
  forall (fuel attempt : nat) (lastErr : option string),
  (forall i, (attempt <= i < attempt + fuel)%nat -> fetch i = Error (errs i)) ->
  fetch_loop fuel attempt RetryDelay lastErr ctxErr (fun _ => false) fetch =
    (match fuel with
     | O => match lastErr with None => Ok (None, 0) | Some e => Error e end
     | S _ => Error (errs (attempt + fuel - 1)%nat)
     end,
     flat_map (fetch_step RetryDelay) (seq attempt fuel)).
Proof.
  induction fuel as [|fuel IH]; intros attempt lastErr Hf; [reflexivity|].
  cbn [fetch_loop]. rewrite andb_false_r.
  rewrite (Hf attempt ltac:(lia)).
  rewrite (IH (S attempt) (Some (errs attempt))) by (intros i Hi; apply Hf; lia).
  rewrite fetch_trace_cons.
  f_equal. destruct fuel; f_equal; f_equal; lia.
Qed.

Lemma fetch_loop_success {IPSetT : Type} (RetryDelay : Z) (ctxErr : string)
  (fetch : nat -> result (IPSetT * Z)) (set : IPSetT) (count : Z) :
  forall (k fuel attempt : nat) (lastErr : option string),
  (k < fuel)%nat ->
  (forall i, (attempt <= i < attempt + k)%nat -> exists e, fetch i = Error e) ->
  fetch (attempt + k)%nat = Ok (set, count) ->
  fetch_loop fuel attempt RetryDelay lastErr ctxErr (fun _ => false) fetch =
    (Ok (Some set, count), flat_map (fetch_step RetryDelay) (seq attempt (S k))).
Proof.
  induction k as [|k IH]; intros fuel attempt lastErr Hk Hf Hok;
    (destruct fuel as [|fuel]; [lia|]); cbn [fetch_loop]; rewrite andb_false_r.
  - rewrite Nat.add_0_r in Hok. rewrite Hok. simpl. rewrite app_nil_r. reflexivity.
  - destruct (Hf attempt ltac:(lia)) as [e He]. rewrite He.
    rewrite (IH fuel (S attempt) (Some e)); [| lia | intros i Hi; apply Hf; lia |].
    + rewrite (fetch_trace_cons RetryDelay attempt (S k)). reflexivity.
    + rewrite <- Hok. f_equal. lia.
Qed.

(** X10: when nothing cancels the context, [FetchWithRetry] with
    [n > 0] attempts makes attempt [i] after a wait of [RetryDelay * i]
    (linear, not exponential); if all [n] fetches fail it returns the last
    error, and the first fetch that succeeds ends the loop with its set and
    count. *)
Theorem FetchWithRetry_schedule {IPSetT : Type} (RetryDelay : Z) (ctxErr : string)
  (fetch : nat -> result (IPSetT * Z)) (n : nat) :
  ((0 < n)%nat -> forall errs : nat -> string,
     (forall i, (i < n)%nat -> fetch i = Error (errs i)) ->
     FetchWithRetry (Z.of_nat n) RetryDelay ctxErr (fun _ => false) fetch =
       (Error (errs (n - 1)%nat), fetch_trace RetryDelay n)) /\
  (forall k set count, (k < n)%nat ->
     (forall i, (i < k)%nat -> exists e, fetch i = Error e) ->
     fetch k = Ok (set, count) ->
     FetchWithRetry (Z.of_nat n) RetryDelay ctxErr (fun _ => false) fetch =
       (Ok (Some set, count), fetch_trace RetryDelay (S k))).
Proof.
  unfold FetchWithRetry, fetch_trace. rewrite Nat2Z.id. split.
  - intros Hn errs Hf.
    rewrite (fetch_loop_schedule RetryDelay ctxErr fetch errs n 0 None)
      by (intros i Hi; apply Hf; lia).
    destruct n; [lia|]. reflexivity.
  - intros k set count Hk Hf Hok.
    apply (fetch_loop_success RetryDelay ctxErr fetch set count k n 0 None Hk).
    + intros i Hi. apply Hf. lia.
    + exact Hok.
Qed.

(** X11: a failed EDL update changes nothing the proxy serves: the matcher,
    the last update time, the update count and the answer of [/ready] at
    every instant stay as they were, and only the error is recorded.  A
    successful update of [count <> 0] entries at [now] makes [/ready]
    answer 200 for the next two hours, and the matcher then answers from
    the new set. *)
Theorem updateNow_then_Ready {Addr Prefix : Type} `{EqDecision Addr}
  (PrefixContains : Prefix -> Addr -> bool) (u : Updater Addr Prefix) (now : Z) :
  (forall e, let '(u', r) := updateNow u (Error e) now in
     r = Error e /\ u_matcher u' = u_matcher u /\ lastUpdate u' = lastUpdate u /\
     updateCount u' = updateCount u /\ lastError u' = Some e /\
     forall t, Ready u' t = Ready u t) /\
  (forall s count, count <> 0 ->
     let '(u', r) := updateNow u (Ok (s, count)) now in
     r = Ok tt /\ updateCount u' = updateCount u + 1 /\ lastError u' = None /\
     (forall x, @Contains Addr _ Prefix PrefixContains (u_matcher u') x = IPSetContains PrefixContains s x) /\
     forall t, now <= t <= now + 2 * Hour -> Ready u' t = (StatusOK, "Ready")).
Proof.
  split.
  - intros e. simpl. repeat split.
  - intros s count Hc. simpl. split; [reflexivity|]. split; [reflexivity|].
    split; [reflexivity|]. split; [intros x; reflexivity|].
    intros t Ht. unfold Ready, GetStatus; simpl.
    rewrite (proj2 (Z.eqb_neq count 0) Hc).
    rewrite Z.gtb_ltb, (proj2 (Z.ltb_ge _ _)) by lia. reflexivity.
Qed.

(* ------------------------------------------------------------------ *)
(** ** Start-up and the configuration request *)

(** X12: a 410 at the initial bootstrap does not switch to allow-all:
    [Initialize] wraps the [*PermanentError] with [errors.New], so
    [InitializeServices] fails with "failed to bootstrap: initial bootstrap
    failed: ..." and leaves the configuration as it was, although the token
    manager is marked deleted.  A 410 from the configuration request, by
    contrast, disables the deployment and succeeds. *)
Theorem InitializeServices_bootstrap_410_fails (BootstrapToken : string) (cfg : Config)
  (now : Z) (msg : string) (getConfig : TokenManager -> CfgResult) :
  String.eqb BootstrapToken "" = false ->
  InitializeServices BootstrapToken cfg now (BootErr true msg) getConfig =
    (cfg, Some (set_deleted NewTokenManager),
     Error ("failed to bootstrap: initial bootstrap failed: " ++ msg)) /\
  deploymentDeleted (set_deleted NewTokenManager) = true /\
  (forall resp st m,
     getConfig (store_response NewTokenManager now resp) = CfgErr (PermanentError st m) ->
     InitializeServices BootstrapToken cfg now (BootOk resp) getConfig =
       (setDeploymentDisabled cfg, Some (store_response NewTokenManager now resp), Ok tt)).
Proof.
  intros Htok. unfold InitializeServices. rewrite Htok.
  split; [reflexivity|]. split; [reflexivity|].
  intros resp st m Hc. simpl. rewrite Hc. reflexivity.
Qed.

Lemma InitializeServices_bootstrap_410_fails_witness :
  String.eqb "eyJ.token" "" = false /\
  InitializeServices "eyJ.token" cfg_initial 0 (BootErr true "permanent error: gone")
    (fun _ => CfgOk ec_blocklist) =
    (cfg_initial, Some (set_deleted NewTokenManager),
     Error ("failed to bootstrap: initial bootstrap failed: " ++ "permanent error: gone")) /\
  deploymentDeleted (set_deleted NewTokenManager) = true /\
  (forall resp st m,
     (fun _ : TokenManager => CfgOk ec_blocklist) (store_response NewTokenManager 0 resp) =
       CfgErr (PermanentError st m) ->
     InitializeServices "eyJ.token" cfg_initial 0 (BootOk resp) (fun _ => CfgOk ec_blocklist) =
       (setDeploymentDisabled cfg_initial, Some (store_response NewTokenManager 0 resp), Ok tt)).
Proof.
  split; [reflexivity|].
  apply (InitializeServices_bootstrap_410_fails "eyJ.token" cfg_initial 0
           "permanent error: gone" (fun _ => CfgOk ec_blocklist)).
  reflexivity.
Defined.

(** X13: once the request can be made (a configuration URL and a token),
    a 200 answer that decodes always yields an enabled deployment, whatever
    its "enabled" field says; a 403, 404 or 410 whose code is
    DEPLOYMENT_DISABLED or DEPLOYMENT_DELETED yields the configuration that
    switches to allow-all; any other 410 is a permanent error. *)
Theorem GetEDLConfig_outcomes (UnmarshalErrorResponse : string -> option string)
  (UnmarshalEDLConfig : string -> result EDLConfig) (NewRequestErr : string -> option string)
  (tm : TokenManager) :
  String.eqb (configURL tm) "" = false -> NewRequestErr (configURL tm) = None ->
  String.eqb (currentToken tm) "" = false ->
  (forall body c, UnmarshalEDLConfig body = Ok c ->
     GetEDLConfig UnmarshalErrorResponse UnmarshalEDLConfig NewRequestErr tm
       (Ok (mkHTTPResponse 200 (Ok body))) =
       CfgOk (mkEDLConfig (Purpose c) (UpdateFrequencySeconds c) (Combined c) true) /\
     forall cfg, DeploymentEnabled
       (applyEDLConfig cfg (mkEDLConfig (Purpose c) (UpdateFrequencySeconds c) (Combined c) true))
       = true) /\
  (forall st body code, (st = 403 \/ st = 404 \/ st = 410) ->
     UnmarshalErrorResponse body = Some code ->
     (code = "DEPLOYMENT_DISABLED" \/ code = "DEPLOYMENT_DELETED") ->
     GetEDLConfig UnmarshalErrorResponse UnmarshalEDLConfig NewRequestErr tm
       (Ok (mkHTTPResponse st (Ok body))) = CfgOk disabledEDLConfig /\
     forall cfg, applyEDLConfig cfg disabledEDLConfig = setDeploymentDisabled cfg) /\
  (forall body, (forall code, UnmarshalErrorResponse body = Some code ->
                   code <> "DEPLOYMENT_DISABLED" /\ code <> "DEPLOYMENT_DELETED") ->
     GetEDLConfig UnmarshalErrorResponse UnmarshalEDLConfig NewRequestErr tm
       (Ok (mkHTTPResponse 410 (Ok body))) = CfgErr (PermanentError 410 body)).
Proof.
  intros Hurl Hreq Htok. unfold GetEDLConfig. rewrite Hurl, Hreq, Htok.
  split; [|split].
  - intros body c Hc. simpl. rewrite Hc. split; [reflexivity|].
    intros cfg. reflexivity.
  - intros st body code Hst Hu Hcode. split; [|reflexivity].
    cbn [RespBody RespStatus].
    replace ((st =? 404) || (st =? 403) || (st =? 410)) with true
      by (destruct Hst as [-> | [-> | ->] ]; reflexivity).
    rewrite Hu. destruct Hcode as [-> | ->]; reflexivity.
  - intros body Hb. simpl.
    destruct (UnmarshalErrorResponse body) as [code|] eqn:Hu; [|reflexivity].
    destruct (Hb code eq_refl) as [H1 H2].
    rewrite (proj2 (String.eqb_neq _ _) H1), (proj2 (String.eqb_neq _ _) H2).
    reflexivity.
Qed.

Lemma GetEDLConfig_outcomes_witness :
  (String.eqb (configURL tm_config) "" = false /\
   (fun _ : string => @None string) (configURL tm_config) = None /\
   String.eqb (currentToken tm_config) "" = false) /\
  GetEDLConfig (fun _ => Some "DEPLOYMENT_DELETED") (fun _ => Ok ec_blocklist) (fun _ => None)
    tm_config (Ok (mkHTTPResponse 404 (Ok "{}"))) = CfgOk disabledEDLConfig.
Proof.
  split; [split; [reflexivity | split; reflexivity]|].
  exact (proj1 (proj1 (proj2 (GetEDLConfig_outcomes (fun _ => Some "DEPLOYMENT_DELETED")
           (fun _ => Ok ec_blocklist) (fun _ => None) tm_config eq_refl eq_refl eq_refl))
           404 "{}" "DEPLOYMENT_DELETED" (or_intror (or_introl eq_refl)) eq_refl
           (or_intror eq_refl))).
Defined.

(* ------------------------------------------------------------------ *)
(** ** The access event of a denied request *)


Lemma debug_headers_In (headers : string -> string) (l : list string) (k v : string) :
  In (k, v) (flat_map (fun key => if String.eqb (headers key) "" then [] else [(key, headers key)]) l)
  <-> In k l /\ v = headers k /\ v <> "".
Proof.
  rewrite in_flat_map. split.
  - intros [key [Hk Hin]].
    destruct (String.eqb_spec (headers key) "") as [E|E]; [destruct Hin|].
    destruct Hin as [Hin|[]]. injection Hin as <- <-. auto.
  - intros (Hk & -> & Hv). exists k. split; [exact Hk|].
    rewrite (proj2 (String.eqb_neq _ _) Hv). left. reflexivity.
Qed.

(** X15: an access event carries the internal debug block exactly when
    the request has a non-empty X-Forwarded-Server or X-Real-Ip header.
    The block then names the path "/auth" and the X-Forwarded-Host header,
    and lists exactly the non-empty headers among X-Forwarded-Server,
    X-Forwarded-Port, X-Real-Ip and X-Forwarded-Method, with their
    values. *)
Theorem NewAccessEvent_internal_info (now : Z) (sourceIP : string)
  (headers : string -> string) (deviceID edlMode : string) (allowed : bool)
  (responseCode : Z) :
  (Internal (NewAccessEvent now sourceIP headers deviceID edlMode allowed responseCode) <> None
   <-> headers "X-Forwarded-Server" <> "" \/ headers "X-Real-Ip" <> "") /\
  (forall info,
     Internal (NewAccessEvent now sourceIP headers deviceID edlMode allowed responseCode)
       = Some info ->
     ProxyPath info = "/auth" /\ IngressHost info = headers "X-Forwarded-Host" /\
     forall k v, In (k, v) (DebugHeaders info) <-> In k debugKeys /\ v = headers k /\ v <> "").
Proof.
  unfold NewAccessEvent. cbv zeta. cbn [Internal].
  pose proof (debug_headers_In headers debugKeys) as HD.
  destruct (flat_map (fun key => if String.eqb (headers key) "" then [] else [(key, headers key)])
              debugKeys) as [|p D] eqn:HDe.
  - assert (Hnone : headers "X-Forwarded-Server" = "" /\ headers "X-Real-Ip" = "").
    { split; destruct (String.eqb_spec (headers "X-Forwarded-Server") "") as [E1|E1];
        destruct (String.eqb_spec (headers "X-Real-Ip") "") as [E2|E2]; auto;
        exfalso;
        solve [ apply (proj2 (HD "X-Forwarded-Server" (headers "X-Forwarded-Server")));
                simpl; auto 6
              | apply (proj2 (HD "X-Real-Ip" (headers "X-Real-Ip"))); simpl; auto 6 ]. }
    destruct Hnone as [-> ->]. simpl.
    split; [split; [intros H; exfalso; apply H; reflexivity | intros [H|H]; exfalso; apply H; reflexivity] | discriminate].
  - destruct (negb (String.eqb (headers "X-Forwarded-Server") "")
              || negb (String.eqb (headers "X-Real-Ip") "")) eqn:Hc.
    + split.
      * split; [intros _|discriminate].
        apply orb_true_iff in Hc. destruct Hc as [Hc|Hc]; apply negb_true_iff, String.eqb_neq in Hc; auto.
      * intros info Hinfo. injection Hinfo as <-. cbn.
        split; [reflexivity|]. split; [reflexivity|]. exact HD.
    + apply orb_false_iff in Hc. destruct Hc as [H1 H2].
      apply negb_false_iff, String.eqb_eq in H1, H2. rewrite H1, H2.
      split; [split; [intros H; exfalso; apply H; reflexivity | intros [H|H]; exfalso; apply H; reflexivity] | discriminate].
Qed.

(* ------------------------------------------------------------------ *)
(** ** The metrics collector *)

Lemma counter_fields_cases (P : (Counters -> Z) -> Prop) :
  P cShipped -> P cDropped -> P cErrors -> P cBatches ->
  forall p, In p counter_fields -> P p.
Proof.
  intros H1 H2 H3 H4 p Hp. simpl in Hp.
  destruct Hp as [<- | [<- | [<- | [<- | []]]]]; assumption.
Qed.

Lemma updateMetrics_fields (mc : MetricsCollector) (f s : Counters) :
  (forall p, In p counter_fields -> p (lastCounters mc) <= p f) ->
  exists mc', updateMetrics mc f s = Some mc' /\ lastCounters mc' = s /\
    forall p, In p counter_fields ->
      p (exported mc') = p (exported mc) + (p f - p (lastCounters mc)).
Proof.
  intros Hle. unfold updateMetrics, counterAdd.
  rewrite (proj2 (Z.ltb_ge _ _)) by (apply Z.le_0_sub, Hle; simpl; tauto).
  rewrite (proj2 (Z.ltb_ge _ _)) by (apply Z.le_0_sub, Hle; simpl; tauto).
  rewrite (proj2 (Z.ltb_ge _ _)) by (apply Z.le_0_sub, Hle; simpl; tauto).
  rewrite (proj2 (Z.ltb_ge _ _)) by (apply Z.le_0_sub, Hle; simpl; tauto).
  eexists. split; [reflexivity|]. split; [reflexivity|].
  apply counter_fields_cases; reflexivity.
Qed.

Lemma collect_run_exported (reads : list (Counters * Counters)) :
  forall mc,
  (forall p, In p counter_fields -> loads_monotone p (p (lastCounters mc)) reads) ->
  exists mc', collect_run mc reads = Some mc' /\
    forall p, In p counter_fields ->
      p (exported mc') - p (lastCounters mc') =
      p (exported mc) - p (lastCounters mc) - unexported p reads.
Proof.
  induction reads as [|[f s] rest IH]; intros mc Hmono.
  - exists mc. split; [reflexivity|]. intros p _. unfold unexported. simpl. lia.
  - destruct (updateMetrics_fields mc f s) as (mc1 & Hu & Hl & Hx).
    { intros p Hp. exact (proj1 (Hmono p Hp)). }
    destruct (IH mc1) as (mc' & Hr & Hd).
    { intros p Hp. rewrite Hl. exact (proj2 (proj2 (Hmono p Hp))). }
    exists mc'. split; [simpl; rewrite Hu; exact Hr|].
    intros p Hp. rewrite (Hd p Hp), (Hx p Hp), Hl.
    unfold unexported. simpl. lia.
Qed.

(** X16: as long as the shipper's counters never go down, the collector
    never panics, and each exported counter equals the counter's last read
    value minus the increments that fell between the two reads of a tick:
    those increments are never exported. *)
Theorem collectMetrics_exports_all_but_unread (reads : list (Counters * Counters)) :
  (forall p, In p counter_fields -> loads_monotone p 0 reads) ->
  exists mc, collect_run NewMetricsCollector reads = Some mc /\
    forall p, In p counter_fields ->
      p (exported mc) = p (lastCounters mc) - unexported p reads.
Proof.
  intros Hmono.
  destruct (collect_run_exported reads NewMetricsCollector) as (mc & Hr & Hd).
  { apply counter_fields_cases; apply (Hmono _); simpl; tauto. }
  exists mc. split; [exact Hr|].
  intros p Hp. specialize (Hd p Hp).
  assert (H0 : forall q, In q counter_fields ->
            q (exported NewMetricsCollector) = 0 /\ q (lastCounters NewMetricsCollector) = 0)
    by (apply counter_fields_cases; split; reflexivity).
  destruct (H0 p Hp). lia.
Qed.

Lemma collectMetrics_exports_all_but_unread_witness :
  (forall p, In p counter_fields ->
     loads_monotone p 0 [(mkCounters 3 0 0 1, mkCounters 5 1 0 2);
                         (mkCounters 5 1 0 2, mkCounters 5 1 1 2)]) /\
  exists mc, collect_run NewMetricsCollector
               [(mkCounters 3 0 0 1, mkCounters 5 1 0 2);
                (mkCounters 5 1 0 2, mkCounters 5 1 1 2)] = Some mc /\
    forall p, In p counter_fields ->
      p (exported mc) = p (lastCounters mc) -
        unexported p [(mkCounters 3 0 0 1, mkCounters 5 1 0 2);
                      (mkCounters 5 1 0 2, mkCounters 5 1 1 2)].
Proof.
  assert (H : forall p, In p counter_fields ->
     loads_monotone p 0 [(mkCounters 3 0 0 1, mkCounters 5 1 0 2);
                         (mkCounters 5 1 0 2, mkCounters 5 1 1 2)])
    by (apply counter_fields_cases; simpl; lia).
  split; [exact H|].
  exact (collectMetrics_exports_all_but_unread _ H).
Defined.

(* ------------------------------------------------------------------ *)
(** ** Which header names the client *)

Lemma extractClientIP_same_xff {Addr : Type} (TrimSpace : string -> string)
  (SplitHostPort : string -> result string) (h : Handler Addr) (r1 r2 : Request) :
  HeaderGet r1 (ipHeaderOverride h) = HeaderGet r2 (ipHeaderOverride h) ->
  HeaderGet r1 "X-Forwarded-For" <> "" ->
  HeaderGet r1 "X-Forwarded-For" = HeaderGet r2 "X-Forwarded-For" ->
  extractClientIP TrimSpace SplitHostPort h r1 = extractClientIP TrimSpace SplitHostPort h r2.
Proof.
  intros Ho Hx Hxe. unfold extractClientIP. rewrite <- Ho, <- Hxe.
  destruct (negb (String.eqb (ipHeaderOverride h) "") &&
            negb (String.eqb (HeaderGet r1 (ipHeaderOverride h)) "")); [reflexivity|].
  rewrite (proj2 (String.eqb_neq _ _) Hx). reflexivity.
Qed.

(** X17: unless the configured override header is present, a non-empty
    X-Forwarded-For header names the client: its first comma-separated
    entry, trimmed.  X-Real-IP and the connection's remote address are then
    ignored, so two requests that agree on the override header and on a
    non-empty X-Forwarded-For get the same answer. *)
Theorem ServeHTTP_forwarded_for_first {Addr : Type} (ParseAddr : string -> result Addr)
  (TrimSpace : string -> string) (SplitHostPort : string -> result string)
  (h : Handler Addr) (r1 r2 : Request) :
  HeaderGet r1 (ipHeaderOverride h) = HeaderGet r2 (ipHeaderOverride h) ->
  HeaderGet r1 "X-Forwarded-For" <> "" ->
  HeaderGet r1 "X-Forwarded-For" = HeaderGet r2 "X-Forwarded-For" ->
  ((ipHeaderOverride h = "" \/ HeaderGet r1 (ipHeaderOverride h) = "") ->
   extractClientIP TrimSpace SplitHostPort h r1 =
     TrimSpace (split_comma_first (HeaderGet r1 "X-Forwarded-For"))) /\
  ServeHTTP ParseAddr TrimSpace SplitHostPort h r1 =
    ServeHTTP ParseAddr TrimSpace SplitHostPort h r2.
Proof.
  intros Ho Hx Hxe. split.
  - intros Hno. unfold extractClientIP.
    replace (negb (String.eqb (ipHeaderOverride h) "") &&
             negb (String.eqb (HeaderGet r1 (ipHeaderOverride h)) "")) with false
      by (destruct Hno as [E | E]; rewrite E; [reflexivity | symmetry; apply andb_false_r]).
    rewrite (proj2 (String.eqb_neq _ _) Hx). reflexivity.
  - unfold ServeHTTP. rewrite (extractClientIP_same_xff TrimSpace SplitHostPort h r1 r2 Ho Hx Hxe).
    reflexivity.
Qed.

(* ------------------------------------------------------------------ *)
(** ** Instances of the properties on concrete inputs *)

Lemma ls_buffered_rel : rb_rel (sh_buffer (ls_state ls_buffered)) [1; 2; 3]%nat.
Proof.
  change (sh_buffer (ls_state ls_buffered))
    with (@mkRingBuffer nat [Some 1; Some 2; Some 3; None]%nat 4 0 3 3).
  unfold rb_rel; cbn [rb_buffer rb_capacity rb_head rb_tail rb_size].
  split; [reflexivity|]. split; [reflexivity|]. split; [simpl; lia|].
  split; [intros _; split; [lia | reflexivity]|].
  intros i x Hi. destruct i as [|[|[|i]]]; simpl in Hi |- *;
    [injection Hi as <-; reflexivity .. | discriminate Hi].
Qed.

Lemma flushBuffer_ships_buffer_in_order_witness :
  (0 < batchSize ls_buffered /\ rb_rel (sh_buffer (ls_state ls_buffered)) [1; 2; 3]%nat /\
   (length [1; 2; 3]%nat <= 3)%nat) /\
  exists s' batches,
    flushBuffer json_ok 0%nat 3 ls_buffered (fun _ => (0, net_ok)) = FlushDone s' batches /\
    concat batches = [1; 2; 3]%nat /\ Forall (batch_ok (batchSize ls_buffered)) batches /\
    accounted s' = accounted (ls_state ls_buffered).
Proof.
  assert (H1 : 0 < batchSize ls_buffered) by (vm_compute; reflexivity).
  assert (H3 : (length [1; 2; 3]%nat <= 3)%nat) by (simpl; lia).
  split; [exact (conj H1 (conj ls_buffered_rel H3))|].
  exact (flushBuffer_ships_buffer_in_order json_ok 0%nat ls_buffered [1; 2; 3]%nat 3
           (fun _ => (0, net_ok)) H1 ls_buffered_rel H3).
Defined.

Lemma processBufferedEvents_oldest_first_witness :
  (0 < batchSize ls_buffered /\ rb_rel (sh_buffer (ls_state ls_buffered)) [1; 2; 3]%nat) /\
  exists s' tr,
    processBufferedEvents json_ok 0%nat ls_buffered 0 net_ok =
      Some (s', tr, take (Z.to_nat (batchSize ls_buffered)) [1; 2; 3]%nat) /\
    accounted s' = accounted (ls_state ls_buffered) /\
    ([1; 2; 3]%nat = [] -> s' = ls_state ls_buffered /\ tr = []).
Proof.
  assert (H1 : 0 < batchSize ls_buffered) by (vm_compute; reflexivity).
  split; [exact (conj H1 ls_buffered_rel)|].
  exact (processBufferedEvents_oldest_first json_ok 0%nat ls_buffered [1; 2; 3]%nat 0 net_ok
           H1 ls_buffered_rel).
Defined.

Lemma FetchWithRetry_no_attempts_witness :
  0 <= 0 /\
  FetchWithRetry (IPSetT := IPSet Z (Z * Z)) 0 Second "context canceled" (fun _ => false)
    (fun _ => Error "connection refused") = (Ok (None, 0), []).
Proof.
  split; [lia|].
  exact (FetchWithRetry_no_attempts 0 Second "context canceled" (fun _ => false)
           (fun _ => Error "connection refused") (Z.le_refl 0)).
Defined.

Lemma ServeHTTP_forwarded_for_first_witness :
  (HeaderGet req_xff (ipHeaderOverride (NewHandler set_10_8 "blocklist" true)) =
     HeaderGet (request_with [("X-Real-IP", "198.51.100.7");
                              ("X-Forwarded-For", "10.1.2.3, 198.51.100.7")] "203.0.113.5:80")
       (ipHeaderOverride (NewHandler set_10_8 "blocklist" true)) /\
   HeaderGet req_xff "X-Forwarded-For" <> "" /\
   HeaderGet req_xff "X-Forwarded-For" =
     HeaderGet (request_with [("X-Real-IP", "198.51.100.7");
                              ("X-Forwarded-For", "10.1.2.3, 198.51.100.7")] "203.0.113.5:80")
       "X-Forwarded-For") /\
  ((ipHeaderOverride (NewHandler set_10_8 "blocklist" true) = "" \/
    HeaderGet req_xff (ipHeaderOverride (NewHandler set_10_8 "blocklist" true)) = "") ->
   extractClientIP TrimSpaceASCII SplitHostPort4 (NewHandler set_10_8 "blocklist" true) req_xff =
     TrimSpaceASCII (split_comma_first (HeaderGet req_xff "X-Forwarded-For"))) /\
  ServeHTTP ParseIPv4 TrimSpaceASCII SplitHostPort4 (NewHandler set_10_8 "blocklist" true) req_xff =
  ServeHTTP ParseIPv4 TrimSpaceASCII SplitHostPort4 (NewHandler set_10_8 "blocklist" true)
    (request_with [("X-Real-IP", "198.51.100.7");
                   ("X-Forwarded-For", "10.1.2.3, 198.51.100.7")] "203.0.113.5:80").
Proof.
  assert (H1 : HeaderGet req_xff (ipHeaderOverride (NewHandler set_10_8 "blocklist" true)) =
     HeaderGet (request_with [("X-Real-IP", "198.51.100.7");
                              ("X-Forwarded-For", "10.1.2.3, 198.51.100.7")] "203.0.113.5:80")
       (ipHeaderOverride (NewHandler set_10_8 "blocklist" true))) by (vm_compute; reflexivity).
  assert (H2 : HeaderGet req_xff "X-Forwarded-For" <> "")
    by (apply String.eqb_neq; vm_compute; reflexivity).
  assert (H3 : HeaderGet req_xff "X-Forwarded-For" =
     HeaderGet (request_with [("X-Real-IP", "198.51.100.7");
                              ("X-Forwarded-For", "10.1.2.3, 198.51.100.7")] "203.0.113.5:80")
       "X-Forwarded-For") by (vm_compute; reflexivity).
  split; [exact (conj H1 (conj H2 H3))|].
  exact (ServeHTTP_forwarded_for_first ParseIPv4 TrimSpaceASCII SplitHostPort4
           (NewHandler set_10_8 "blocklist" true) req_xff _ H1 H2 H3).
Defined.
